(** * local-brain: the retrieval pipeline

    A shallow embedding of the chunker ([rag_index.chunk_text]), the full
    rebuild ([rag_index.build_index]), the incremental live-log ingestion
    ([_alpha/ingest_conversations.py]) and the context assembler
    ([llm_rag_cli.retrieve_context]), with the properties of the
    specification stated and settled against them.

    Python [str] values are sequences of Unicode code points; they are
    modelled as [list N].  Python [int] values are [Z]. *)

From stdpp Require Import base numbers list option strings gmap fin_maps.
From Stdlib Require Import ZArith Lia DecimalString.
From Stdlib Require DecimalPos DecimalZ.

Local Open Scope Z_scope.

(** ** Python strings *)

Module PyStr.

Abbreviation str := (list N).

(** A literal of the source, written as a Rocq string (ASCII only). *)
Definition lit (s : string) : str :=
  Ascii.N_of_ascii <$> String.list_ascii_of_string s.

Definition NL : N := 10%N.
Definition CR : N := 13%N.

(** [str.isspace] on one code point: the Unicode white-space table that
    CPython's [str.strip()] uses. *)
Definition isspace (c : N) : bool :=
  ((9 <=? c) && (c <=? 13) || (28 <=? c) && (c <=? 32)
   || (c =? 133) || (c =? 160) || (c =? 5760)
   || (8192 <=? c) && (c <=? 8202)
   || (c =? 8232) || (c =? 8233) || (c =? 8239) || (c =? 8287)
   || (c =? 12288))%N.

Fixpoint lstrip (s : str) : str :=
  match s with
  | c :: s' => if isspace c then lstrip s' else s
  | [] => []
  end.

Definition rstrip (s : str) : str := reverse (lstrip (reverse s)).

(** [s.strip()] *)
Definition strip (s : str) : str := rstrip (lstrip s).

(** [s.replace("\r\n", "\n")]: left to right, occurrences do not overlap. *)
Fixpoint replace_crlf (s : str) : str :=
  match s with
  | c :: s' =>
      match s' with
      | d :: s'' =>
          if ((c =? CR) && (d =? NL))%N then NL :: replace_crlf s''
          else c :: replace_crlf s'
      | [] => [c]
      end
  | [] => []
  end.

(** [s.split("\n")]: never empty, [[""]] for the empty string. *)
Fixpoint split_nl (s : str) : list str :=
  match s with
  | [] => [[]]
  | c :: s' =>
      if (c =? NL)%N then [] :: split_nl s'
      else match split_nl s' with
           | l :: ls => (c :: l) :: ls
           | [] => [[c]]
           end
  end.

(** [sep.join(parts)] *)
Fixpoint join (sep : str) (parts : list str) : str :=
  match parts with
  | [] => []
  | [p] => p
  | p :: ps => p ++ sep ++ join sep ps
  end.

(** [len(s)] as a Python integer *)
Definition len {A} (l : list A) : Z := Z.of_nat (length l).

(** [sum(len(x) for x in current)] *)
Definition sum_len (current : list str) : Z :=
  foldr (λ x acc, len x + acc) 0 current.

(** [str(n)] for an integer *)
Definition str_of_int (n : Z) : str :=
  lit (NilZero.string_of_int (Z.to_int n)).

(** Truthiness of a sequence: [if xs:] *)
Definition truthy {A} (l : list A) : bool :=
  match l with [] => false | _ => true end.

End PyStr.
Import PyStr.

(** ** The chunker: [rag_index.chunk_text] *)

Module Chunker.

(** The [for line in text.split("\n")] loop with its two accumulators,
    followed by the final flush. *)
Fixpoint chunk_loop (max_chars : Z) (lines : list str)
    (chunks : list str) (current : list str) : list str :=
  match lines with
  | [] =>
      if truthy current then chunks ++ [strip (join [NL] current)]
      else chunks
  | line :: rest =>
      if (sum_len current + len line + 1 >? max_chars) && truthy current
      then chunk_loop max_chars rest
             (chunks ++ [strip (join [NL] current)]) [line]
      else chunk_loop max_chars rest chunks (current ++ [line])
  end.

(** [text.replace("\r\n", "\n").strip()] *)
Definition normalize (text : str) : str := strip (replace_crlf text).

Definition chunk_text (text : str) (max_chars : Z) : list str :=
  let text := normalize text in
  if negb (truthy text) then []
  else chunk_loop max_chars (split_nl text) [] [].

(** The default of the [max_chars] parameter. *)
Definition default_max_chars : Z := 1000.

End Chunker.
Import Chunker.

(** ** JSON values and Python dictionaries

    What [json.loads] returns, and what the store keeps as metadata.
    Numbers are the integers; an object keeps its items in order and
    [get] takes the first item with the key. *)

Module Json.

#[local] Set Warnings "-register-all".

Inductive value :=
| JNull
| JBool (b : bool)
| JInt (n : Z)
| JStr (s : str)
| JArr (items : list value)
| JObj (items : list (str * value)).

Abbreviation dict := (list (str * value)).

(** [d.get(key, default)] on a dictionary *)
Fixpoint dict_get (d : dict) (key : str) (default : value) : value :=
  match d with
  | [] => default
  | (k, v) :: d' => if decide (k = key) then v else dict_get d' key default
  end.

(** [bool(v)] *)
Definition py_bool (v : value) : bool :=
  match v with
  | JNull => false
  | JBool b => b
  | JInt n => negb (n =? 0)
  | JStr s => truthy s
  | JArr l => truthy l
  | JObj o => truthy o
  end.

(** [str(b)] for a Python [bool] *)
Definition str_of_bool (b : bool) : str :=
  if b then lit "True" else lit "False".

End Json.
Import Json.

(** ** The external collaborators

    The embedding model, the JSON parser, Python's [repr] of containers and
    the nearest-neighbour query are used as given.  A call of the embedding
    model or of the store can fail: [fails n] says whether the [n]-th such
    call of a run (counted from 0) raises. *)

Class Embedder := {
  Vec : Type;
  (** the embedding of one text *)
  embed : str → Vec;
}.

Section Store.
Context `{Embedder}.

(** One record of the Chroma collection, kept under its id. *)
Record Entry := mkEntry {
  document : str;
  metadata : dict;
  embedding : Vec;
}.

(** The [where={key: text}] filter of [collection.delete]. *)
Definition matches_where (key text : str) (e : Entry) : bool :=
  match dict_get (metadata e) key JNull with
  | JStr s => bool_decide (s = text)
  | _ => false
  end.

(** [collection.delete(where={key: text})], when it succeeds. *)
Definition delete_where (key text : str) (c : gmap str Entry)
    : gmap str Entry :=
  filter (λ kv, matches_where key text kv.2 = false) c.

(** One record of [collection.add]: an id already present is left as it
    is. *)
Definition add_record (c : gmap str Entry) (r : str * Entry)
    : gmap str Entry :=
  match c !! r.1 with
  | Some _ => c
  | None => <[r.1 := r.2]> c
  end.

(** The rows that [collection.add(documents, embeddings, metadatas, ids)]
    receives. *)
Fixpoint rows (documents : list str) (embeddings : list Vec)
    (metadatas : list dict) (ids : list str) : list (str * Entry) :=
  match documents, embeddings, metadatas, ids with
  | d :: ds, e :: es, m :: ms, i :: is_ =>
      (i, mkEntry d m e) :: rows ds es ms is_
  | _, _, _, _ => []
  end.

(** [collection.add(...)], when it succeeds. *)
Definition add_rows (documents : list str) (embeddings : list Vec)
    (metadatas : list dict) (ids : list str) (c : gmap str Entry)
    : gmap str Entry :=
  foldl add_record c (rows documents embeddings metadatas ids).

End Store.

Class Host `{Embedder} := {
  (** [json.loads]; [None] when it raises *)
  json_loads : str → option value;
  (** [str(v)] for a list or an object *)
  py_repr : value → str;
  (** the failure schedule of the embedding and store calls *)
  fails : nat → bool;
  (** [collection.query(query_texts=[q], n_results=k)]: the first row of
      documents and of metadatas, nearest first *)
  query : gmap str Entry → str → Z → list str * list dict;
}.

(** ** State and exceptions

    What a run reads and writes outside its own variables: the collection,
    the ingest-state file and the count of external calls made so far. *)

Inductive exn :=
| ExternalError   (* the embedding model or the store raised *)
| AttributeError  (* [.get], [.values] or [.strip] on a value that has
                     none *)
| TypeError.      (* iterating over a value that is not iterable *)

Inductive result (A : Type) :=
| Ok (a : A)
| Raise (e : exn).
Arguments Ok {A} a.
Arguments Raise {A} e.

Section Runs.
Context `{Host}.

Record World := mkWorld {
  collection : gmap str Entry;
  (** [conversations_ingest_state.json]: its ["last_line"], [None] when
      the file is absent *)
  state_file : option Z;
  clock : nat;
}.

Definition M (A : Type) : Type := World → World * result A.

#[export] Instance M_ret : MRet M := λ A a w, (w, Ok a).
#[export] Instance M_bind : MBind M := λ A B f m w,
  match m w with
  | (w', Ok a) => f a w'
  | (w', Raise e) => (w', Raise e)
  end.

Definition raise {A} (e : exn) : M A := λ w, (w, Raise e).

(** [try: m except Exception: pass] *)
Definition try_pass (m : M unit) : M unit := λ w,
  match m w with
  | (w', Raise _) => (w', Ok tt)
  | r => r
  end.

(** [for x in xs: s = body(s, x)] *)
Fixpoint for_each {A S} (xs : list A) (body : S → A → M S) (s : S) : M S :=
  match xs with
  | [] => mret s
  | x :: xs' => s' ← body s x; for_each xs' body s'
  end.

Definition tick (w : World) : World :=
  mkWorld (collection w) (state_file w) (S (clock w)).

(** [collection.delete(where={key: text})] *)
Definition collection_delete (key text : str) : M unit := λ w,
  if fails (clock w) then (tick w, Raise ExternalError)
  else (mkWorld (delete_where key text (collection w)) (state_file w)
          (S (clock w)), Ok tt).

(** [model.encode(docs, show_progress_bar=False).tolist()] *)
Definition model_encode (docs : list str) : M (list Vec) := λ w,
  if fails (clock w) then (tick w, Raise ExternalError)
  else (tick w, Ok (embed <$> docs)).

(** [collection.add(documents=..., embeddings=..., metadatas=..., ids=...)] *)
Definition collection_add (documents : list str) (embeddings : list Vec)
    (metadatas : list dict) (ids : list str) : M unit := λ w,
  if fails (clock w) then (tick w, Raise ExternalError)
  else (mkWorld (add_rows documents embeddings metadatas ids (collection w))
          (state_file w) (S (clock w)), Ok tt).

(** The three lists a batch is accumulated in. *)
Record Batch := mkBatch {
  docs : list str;
  metadatas : list dict;
  ids : list str;
}.

Definition no_batch : Batch := mkBatch [] [] [].

(** The batch insert both ingestion loops perform: embed, then add. *)
Definition insert_batch (b : Batch) : M unit :=
  embeddings ← model_encode (docs b);
  collection_add (docs b) embeddings (metadatas b) (ids b).

(** [str(v)] as an f-string field formats it *)
Definition py_str (v : value) : str :=
  match v with
  | JStr s => s
  | JNull => lit "None"
  | JBool b => str_of_bool b
  | JInt n => str_of_int n
  | _ => py_repr v
  end.

End Runs.

(** ** The export loader: [rag_index.iter_chatgpt_messages]

    A generator is modelled by what it yields and the exception that ends
    it, if any. The files are given as the loop finds them: the stem of the
    path and what [json.load] returns, [None] when it raises. *)

Module Loader.

Definition gen (A : Type) : Type := (list A * option exn)%type.

(** [for x in xs: yield from body(x)] *)
Fixpoint gen_for {A B} (xs : list A) (body : A → gen B) : gen B :=
  match xs with
  | [] => ([], None)
  | x :: xs' =>
      match body x with
      | (ys, Some e) => (ys, Some e)
      | (ys, None) =>
          let '(zs, e) := gen_for xs' body in (ys ++ zs, e)
      end
  end.

(** [key in d] *)
Definition dict_has (d : dict) (key : str) : bool :=
  bool_decide (key ∈ d.*1).

(** The items of a dictionary, each key once (the first item with a key is
    the one [get] sees). *)
Fixpoint dict_items_from (seen : list str) (d : dict) : dict :=
  match d with
  | [] => []
  | (k, v) :: d' =>
      if bool_decide (k ∈ seen) then dict_items_from seen d'
      else (k, v) :: dict_items_from (k :: seen) d'
  end.

(** [d.values()] *)
Definition dict_values (d : dict) : list value :=
  (dict_items_from [] d).*2.

(** [p for p in content_parts if isinstance(p, str)]: the string items of
    a list, the characters of a string, the keys of an object; [None] for
    a value that cannot be iterated. *)
Definition string_parts (content_parts : value) : option (list str) :=
  match content_parts with
  | JArr items =>
      Some (omap (λ p, match p with JStr s => Some s | _ => None end) items)
  | JStr s => Some ((λ c, [c]) <$> s)
  | JObj d => Some (dict_items_from [] d).*1
  | _ => None
  end.

(** The body of [for node in mapping]. *)
Definition node_messages (title : value) (node : value)
    : gen (value * value * str) :=
  match node with
  | JObj nd =>
      let msg := dict_get nd (lit "message") JNull in
      if negb (py_bool msg) then ([], None)
      else
        match msg with
        | JObj md =>
            match dict_get md (lit "author") (JObj []) with
            | JObj ad =>
                let role := dict_get ad (lit "role") (JStr (lit "unknown")) in
                match dict_get md (lit "content") (JObj []) with
                | JObj cd =>
                    let parts := dict_get cd (lit "parts") JNull in
                    let content_parts :=
                      if py_bool parts then parts else JArr [] in
                    match string_parts content_parts with
                    | Some ps =>
                        let text := strip (join [NL; NL] ps) in
                        if truthy text then ([(title, role, text)], None)
                        else ([], None)
                    | None => ([], Some TypeError)
                    end
                | _ => ([], Some AttributeError)
                end
            | _ => ([], Some AttributeError)
            end
        | _ => ([], Some AttributeError)
        end
  | _ => ([], Some AttributeError)
  end.

(** [for node in mapping.values()], for a [mapping] that may be no
    dictionary. *)
Definition mapping_messages (title : value) (mapping : value)
    : gen (value * value * str) :=
  match mapping with
  | JObj md => gen_for (dict_values md) (node_messages title)
  | _ => ([], Some AttributeError)
  end.

(** The body of [for conv in data]. *)
Definition conv_messages (stem : str) (conv : value)
    : gen (value * value * str) :=
  match conv with
  | JObj cd =>
      mapping_messages (dict_get cd (lit "title") (JStr stem))
        (dict_get cd (lit "mapping") (JObj []))
  | _ => ([], Some AttributeError)
  end.

(** The body of [for path in files]. *)
Definition file_messages (file : str * option value)
    : gen (value * value * str) :=
  let '(stem, loaded) := file in
  match loaded with
  | None => ([], None)
  | Some data =>
      match data with
      | JObj d =>
          if dict_has d (lit "mapping") then
            mapping_messages (dict_get d (lit "title") (JStr stem))
              (dict_get d (lit "mapping") JNull)
          else ([], None)
      | JArr convs => gen_for convs (conv_messages stem)
      | _ => ([], None)
      end
  end.

(** The export directory as the function sees it: [conversations.json]
    ([None] when there is no such file), and the files of
    [glob("**/*.json")]. *)
Record ExportDir := mkExportDir {
  conversations_file : option (option value);
  json_files : list (str * option value);
}.

Definition iter_chatgpt_messages (export_dir : ExportDir)
    : gen (value * value * str) :=
  let files :=
    match conversations_file export_dir with
    | Some loaded => [(lit "conversations", loaded)]
    | None => json_files export_dir
    end in
  gen_for files file_messages.

End Loader.

(** ** The full rebuild: [rag_index.build_index] *)

Module RagIndex.
Section RagIndex.
Context `{Host}.

Definition export_tag : str := lit "chatgpt_export".

(** The body of [for chunk in chunk_text(text)]. *)
Definition index_chunk (title role : value) (st : Batch * Z) (chunk : str)
    : M (Batch * Z) :=
  let '(b, doc_id) := st in
  let b := mkBatch (docs b ++ [chunk])
             (metadatas b ++
                [[(lit "source", JStr export_tag);
                  (lit "conversation_title", title);
                  (lit "role", role)]])
             (ids b ++ [lit "chatgpt-" ++ str_of_int doc_id]) in
  let doc_id := doc_id + 1 in
  if len (docs b) >=? 128 then
    _ ← insert_batch b;
    mret (no_batch, doc_id)
  else mret (b, doc_id).

(** The body of [for title, role, text in iter_chatgpt_messages(...)]. *)
Definition index_message (st : Batch * Z) (msg : value * value * str)
    : M (Batch * Z) :=
  let '(title, role, text) := msg in
  for_each (chunk_text text default_max_chars) (index_chunk title role) st.

(** [build_index]. [export] is the generator
    [iter_chatgpt_messages(export_dir)] the loop consumes: the messages it
    yields and the exception that ends it, if any. The loop body runs on
    every message yielded; an exception of the generator then leaves the
    loop and the function, the final flush not reached. *)
Definition build_index (export : Loader.gen (value * value * str))
    : M unit :=
  _ ← try_pass (collection_delete (lit "source") export_tag);
  st ← for_each export.1 index_message (no_batch, 0);
  match export.2 with
  | Some e => raise e
  | None =>
      if truthy (docs st.1) then insert_batch st.1
      else mret tt
  end.

End RagIndex.
End RagIndex.

(** ** Incremental ingestion: [_alpha/ingest_conversations.py] *)

Module Ingest.
Section Ingest.
Context `{Host}.

Definition live_tag : str := lit "live_cli".

(** [load_state]: 0 without a state file. *)
Definition load_state : M Z := λ w, (w, Ok (default 0 (state_file w))).

Definition save_state (last_line : Z) : M unit := λ w,
  (mkWorld (collection w) (Some last_line) (clock w), Ok tt).

(** [for i, line in enumerate(f, start=1)], from line number [i] on: the
    pairs the generator yields. *)
Fixpoint scan (i : Z) (lines : list str) (last_line : Z)
    : list (Z * value) :=
  match lines with
  | [] => []
  | line :: rest =>
      if i <=? last_line then scan (i + 1) rest last_line
      else
        let line := strip line in
        if negb (truthy line) then scan (i + 1) rest last_line
        else match json_loads line with
             | None => scan (i + 1) rest last_line
             | Some rec => (i, rec) :: scan (i + 1) rest last_line
             end
  end.

(** [iter_new_records(last_line)]; the log is [None] when the file does
    not exist. *)
Definition iter_new_records (log : option (list str)) (last_line : Z)
    : list (Z * value) :=
  match log with
  | None => []
  | Some lines => scan 1 lines last_line
  end.

(** [rec.get(key, default)] *)
Definition rec_get (rec : value) (key : str) (default : value) : M value :=
  match rec with
  | JObj d => mret (dict_get d key default)
  | _ => raise AttributeError
  end.

(** [v.strip()] *)
Definition py_strip (v : value) : M str :=
  match v with
  | JStr s => mret (strip s)
  | _ => raise AttributeError
  end.

(** The composed document of one turn, before [.strip()]. *)
Definition compose (timestamp model_name : value) (used_rag : bool)
    (user_prompt assistant_reply : str) : str :=
  lit "[" ++ py_str timestamp ++ lit "] (cli, model=" ++ py_str model_name
  ++ lit ", used_rag=" ++ str_of_bool used_rag ++ lit ")" ++ [NL]
  ++ lit "User:" ++ [NL] ++ user_prompt ++ [NL; NL]
  ++ lit "Assistant:" ++ [NL] ++ assistant_reply ++ [NL].

(** The body of [for line_no, rec in iter_new_records(last_line)]; the
    state is the batch and [new_last_line]. *)
Definition ingest_record (st : Batch * Z) (item : Z * value)
    : M (Batch * Z) :=
  let '(b, new_last_line) := st in
  let '(line_no, rec) := item in
  let new_last_line := Z.max new_last_line line_no in
  up ← rec_get rec (lit "user_prompt") (JStr []);
  user_prompt ← py_strip up;
  ar ← rec_get rec (lit "assistant_reply") (JStr []);
  assistant_reply ← py_strip ar;
  timestamp ← rec_get rec (lit "timestamp") (JStr []);
  model_name ← rec_get rec (lit "model") (JStr []);
  ur ← rec_get rec (lit "used_rag") (JBool false);
  let used_rag := py_bool ur in
  if negb (truthy user_prompt) && negb (truthy assistant_reply)
  then mret (b, new_last_line)
  else
    let text :=
      strip (compose timestamp model_name used_rag
               user_prompt assistant_reply) in
    let b := mkBatch (docs b ++ [text])
               (metadatas b ++
                  [[(lit "source", JStr live_tag);
                    (lit "timestamp", timestamp);
                    (lit "model", model_name);
                    (lit "used_rag", JBool used_rag)]])
               (ids b ++ [lit "live-cli-" ++ str_of_int line_no]) in
    if len (docs b) >=? 64 then
      _ ← insert_batch b;
      mret (no_batch, new_last_line)
    else mret (b, new_last_line).

Definition main (log : option (list str)) : M unit :=
  last_line ← load_state;
  st ← for_each (iter_new_records log last_line) ingest_record
         (no_batch, last_line);
  _ ← (if truthy (docs st.1) then insert_batch st.1 else mret tt);
  if st.2 >? last_line then save_state st.2
  else mret tt.

End Ingest.
End Ingest.

(** ** Context assembly: [llm_rag_cli.retrieve_context] *)

Module RagCli.
Section RagCli.
Context `{Host}.

(** [cfg["rag"]]: the two keys read here, [None] when absent. *)
Record RagCfg := mkRagCfg {
  top_k : option Z;
  max_context_chars : option Z;
}.

(** The f-string of one snippet. *)
Definition format_piece (doc : str) (meta : dict) : str :=
  lit "[" ++ py_str (dict_get meta (lit "conversation_title")
                       (JStr (lit "unknown")))
  ++ lit "] (" ++ py_str (dict_get meta (lit "role") JNull) ++ lit "):"
  ++ [NL] ++ doc ++ [NL].

(** [for doc, meta in zip(docs, metas)] with its [break]. *)
Fixpoint pack (max_chars : Z) (pairs : list (str * dict))
    (context_chunks : list str) (total_chars : Z) : list str :=
  match pairs with
  | [] => context_chunks
  | (doc, meta) :: rest =>
      let piece := format_piece doc meta in
      if total_chars + len piece >? max_chars then context_chunks
      else pack max_chars rest (context_chunks ++ [piece])
             (total_chars + len piece)
  end.

Definition header : str :=
  lit "The following context is retrieved from my past ChatGPT conversations. "
  ++ lit "Use it to ground your answer, but do NOT repeat it verbatim unless necessary."
  ++ [NL; NL].

(** [retrieve_context] after the query: the packing loop and the
    return. *)
Definition assemble (max_chars : Z) (docs : list str) (metas : list dict)
    : str :=
  let context_chunks := pack max_chars (zip docs metas) [] 0 in
  if negb (truthy context_chunks) then []
  else header ++ join [NL; NL] context_chunks.

Definition retrieve_context (c : gmap str Entry) (q : str) (cfg : RagCfg)
    : str :=
  let top_k := default 8 (top_k cfg) in
  let max_chars := default 8000 (max_context_chars cfg) in
  let '(docs, metas) := query c q top_k in
  assemble max_chars docs metas.

End RagCli.
End RagCli.

(** * The vocabulary of the statements *)

(** No white space at the front, resp. at the back. *)
Definition tight_front (s : str) : Prop :=
  ∀ c, head s = Some c → isspace c = false.
Definition tight_back (s : str) : Prop :=
  ∀ c, last s = Some c → isspace c = false.

(** What one chunk is made of: a run of lines that is either a single line
    or whose characters, the joining newlines not counted, stay below the
    bound. *)
Definition group_ok (max_chars : Z) (g : list str) : Prop :=
  g ≠ [] ∧ (length g = 1%nat ∨ sum_len g + 1 ≤ max_chars).

(** The lines of the normalised text, none for an empty text. *)
Definition source_lines (text : str) : list str :=
  if truthy (normalize text) then split_nl (normalize text) else [].

(** [n] copies of a character, and [n] copies of a line joined by
    newlines. *)
Definition chars (n : nat) (c : string) : str := mjoin (replicate n (lit c)).
Definition text_of_lines (ls : list str) : str := join [NL] ls.

Section RunVocabulary.
Context `{Host}.

(** The formatted snippets of a query result, in relevance order. *)
Definition pieces (docs : list str) (metas : list dict) : list str :=
  (λ p, RagCli.format_piece p.1 p.2) <$> zip docs metas.

(** A computation respects a relation [R] on worlds when the world it
    leaves, returning or raising, is related to the world it started
    from. *)
Definition respects (R : World → World → Prop) {A} (m : M A) : Prop :=
  ∀ w, R w (m w).1.

(** Every record of [w] that the rebuild's filter does not match is in
    [w'], unchanged. *)
Definition keeps_others (w w' : World) : Prop :=
  ∀ (id : str) (e : Entry),
    collection w !! id = Some e →
    matches_where (lit "source") RagIndex.export_tag e = false →
    collection w' !! id = Some e.

(** A computation is faithful to the failure schedule when it returns
    exactly if none of the external calls it made failed, and otherwise
    raises [ExternalError] at the first failing call, which is then the
    last call it made. *)
Definition faithful {A} (m : M A) : Prop := ∀ w,
  match m w with
  | (w', Ok _) =>
      (clock w ≤ clock w')%nat ∧
      ∀ n, (clock w ≤ n < clock w')%nat → fails n = false
  | (w', Raise e) =>
      e = ExternalError ∧ (clock w < clock w')%nat ∧
      fails (pred (clock w')) = true ∧
      ∀ n, (clock w ≤ n < pred (clock w'))%nat → fails n = false
  end.

(** [build_index] after its first step. *)
Definition index_all (export : Loader.gen (value * value * str))
    : M unit :=
  st ← for_each export.1 RagIndex.index_message (no_batch, 0);
  match export.2 with
  | Some e => raise e
  | None =>
      if truthy (docs st.1) then insert_batch st.1
      else mret tt
  end.

(** The world after the first step: the clock has advanced by one call,
    and the export partition is gone unless the deletion raised. *)
Definition after_delete (w : World) : World :=
  if fails (clock w) then tick w
  else mkWorld
         (delete_where (lit "source") RagIndex.export_tag (collection w))
         (state_file w) (S (clock w)).

(** A line the generator passes over: blank after [strip()], or one that
    [json.loads] rejects. *)
Definition is_noise (line : str) : bool :=
  negb (truthy (strip line))
  || match json_loads (strip line) with None => true | Some _ => false end.

(** The highest line number among [last_line] and the yielded pairs: the
    value of [new_last_line] after the loop. *)
Definition high (last_line : Z) (items : list (Z * value)) : Z :=
  foldl (λ a p, Z.max a p.1) last_line items.

(** A valid, non-empty line of the live log: not blank, parsed to an
    object whose [user_prompt] and [assistant_reply], where present, are
    strings, not both empty once stripped. *)
Definition valid_turn (line : str) : Prop :=
  truthy (strip line) = true ∧
  ∃ (d : dict) (up ar : str),
    json_loads (strip line) = Some (JObj d) ∧
    dict_get d (lit "user_prompt") (JStr []) = JStr up ∧
    dict_get d (lit "assistant_reply") (JStr []) = JStr ar ∧
    negb (truthy (strip up)) && negb (truthy (strip ar)) = false.

(** The id of the turn on line [n]. *)
Definition live_id (n : Z) : str := lit "live-cli-" ++ str_of_int n.

End RunVocabulary.

(** ** More vocabulary: ids, rows and runs *)

(** The id of the [n]-th chunk of a rebuild. *)
Definition export_id (n : Z) : str := lit "chatgpt-" ++ str_of_int n.

Section RowVocabulary.
Context `{Host}.

(** Every record of [w] is in [w'], unchanged. *)
Definition keeps_all (w w' : World) : Prop :=
  ∀ (id : str) (e : Entry),
    collection w !! id = Some e → collection w' !! id = Some e.

(** The rows a batch stands for. *)
Definition rows_of (b : Batch) : list (str * Entry) :=
  rows (docs b) (embed <$> docs b) (metadatas b) (ids b).

(** A parsed line the loop body cannot handle: not an object, or an object
    whose [user_prompt] or [assistant_reply] is present and not a string. *)
Definition bad_record (rec : value) : bool :=
  match rec with
  | JObj d =>
      match dict_get d (lit "user_prompt") (JStr []),
            dict_get d (lit "assistant_reply") (JStr []) with
      | JStr _, JStr _ => false
      | _, _ => true
      end
  | _ => true
  end.

(** The row of a yielded pair: none for a record that is skipped (both
    texts empty once stripped) or that the loop body cannot handle. *)
Definition turn_row (item : Z * value) : option (str * Entry) :=
  match item.2 with
  | JObj d =>
      match dict_get d (lit "user_prompt") (JStr []),
            dict_get d (lit "assistant_reply") (JStr []) with
      | JStr up, JStr ar =>
          if negb (truthy (strip up)) && negb (truthy (strip ar)) then None
          else
            let timestamp := dict_get d (lit "timestamp") (JStr []) in
            let model_name := dict_get d (lit "model") (JStr []) in
            let used_rag :=
              py_bool (dict_get d (lit "used_rag") (JBool false)) in
            let text :=
              strip (Ingest.compose timestamp model_name used_rag
                       (strip up) (strip ar)) in
            Some (live_id item.1,
                  mkEntry text
                    [(lit "source", JStr Ingest.live_tag);
                     (lit "timestamp", timestamp);
                     (lit "model", model_name);
                     (lit "used_rag", JBool used_rag)]
                    (embed text))
      | _, _ => None
      end
  | _ => None
  end.

(** The rows of the lines of the log after the cursor, in line order. *)
Definition live_rows (log : option (list str)) (last_line : Z)
    : list (str * Entry) :=
  omap turn_row (Ingest.iter_new_records log last_line).

End RowVocabulary.

(** The state file is the same in both worlds. *)
Definition same_cursor `{Embedder} (w w' : World) : Prop :=
  state_file w' = state_file w.

(** The three lists of a batch have one length. *)
Definition batch_wf `{Embedder} (b : Batch) : Prop :=
  length (docs b) = length (metadatas b) ∧ length (docs b) = length (ids b).

Section ExportVocabulary.
Context `{Host}.

(** The chunks of the messages in order, each with the title and role of
    its message. *)
Definition message_chunks (messages : list (value * value * str))
    : list (value * value * str) :=
  messages ≫= λ '(title, role, text),
    (λ chunk, (title, role, chunk)) <$> chunk_text text default_max_chars.

(** The rows of the chunks: the counter starts at [doc_id] and goes up by
    one per chunk. *)
Fixpoint export_rows (chunks : list (value * value * str)) (doc_id : Z)
    : list (str * Entry) :=
  match chunks with
  | [] => []
  | (title, role, chunk) :: rest =>
      (export_id doc_id,
       mkEntry chunk
         [(lit "source", JStr RagIndex.export_tag);
          (lit "conversation_title", title);
          (lit "role", role)]
         (embed chunk))
      :: export_rows rest (doc_id + 1)
  end.

(** A row of the export partition. *)
Definition export_row (r : str * Entry) : Prop :=
  matches_where (lit "source") RagIndex.export_tag r.2 = true.

(** The collection without its export partition. *)
Definition others (c : gmap str Entry) : gmap str Entry :=
  delete_where (lit "source") RagIndex.export_tag c.

End ExportVocabulary.


(** The value is a JSON object. *)
Definition is_object (v : value) : bool :=
  match v with JObj _ => true | _ => false end.

(** ** The callers of [retrieve_context] and the writers of the live log *)

Module Callers.
Section Callers.
Context `{Host}.

(** [cfg_big] of [topic_taxonomy.main], [generate_profile.main] and
    [unfinished_projects.main]: the budget of the reports is twice the
    configured one. *)
Definition cfg_big (cfg : RagCli.RagCfg) : RagCli.RagCfg :=
  RagCli.mkRagCfg (RagCli.top_k cfg)
    (Some (default 8000 (RagCli.max_context_chars cfg) * 2)).

(** The record [brain_api.log_interaction] writes as one line of the live
    log; [timestamp] is the time of the call in ISO format. *)
Definition log_record (timestamp source model_name : str) (used_rag : bool)
    (user_prompt sent_prompt rag_context assistant_reply : str) : value :=
  JObj [(lit "timestamp", JStr timestamp);
        (lit "source", JStr source);
        (lit "model", JStr model_name);
        (lit "used_rag", JBool used_rag);
        (lit "user_prompt", JStr user_prompt);
        (lit "sent_prompt", JStr sent_prompt);
        (lit "rag_context", JStr rag_context);
        (lit "assistant_reply", JStr assistant_reply)].

(** The record of [llm_rag_cli.log_interaction]. *)
Definition cli_log_record (timestamp model_name : str) (used_rag : bool)
    (user_prompt final_user_message rag_context assistant_reply : str)
    : value :=
  log_record timestamp (lit "cli") model_name used_rag user_prompt
    final_user_message rag_context assistant_reply.

(** The record of [router.log_interaction_web]: no context is written. *)
Definition web_log_record (timestamp model_name : str) (used_rag : bool)
    (user_prompt sent_prompt assistant_reply : str) : value :=
  log_record timestamp (lit "web") model_name used_rag user_prompt
    sent_prompt [] assistant_reply.

(** A message of an OpenAI-style request. *)
Record ChatMessage := mkChatMessage {
  role : str;
  content : str;
}.

(** [for m in req.messages] of [brain_api.run_rag_completion], with its
    two lists. *)
Fixpoint split_roles (messages : list ChatMessage)
    (user_parts system_parts : list str) : list str * list str :=
  match messages with
  | [] => (user_parts, system_parts)
  | m :: rest =>
      if bool_decide (role m = lit "user") then
        split_roles rest (user_parts ++ [content m]) system_parts
      else if bool_decide (role m = lit "system") then
        split_roles rest user_parts (system_parts ++ [content m])
      else split_roles rest user_parts system_parts
  end.

(** The prompt sent when context was retrieved. *)
Definition wrap_context (context user_prompt : str) : str :=
  lit "Use the following retrieved context to answer the question if it is relevant."
  ++ [NL]
  ++ lit "If it is not relevant, ignore it and answer normally." ++ [NL; NL]
  ++ lit "### Retrieved context" ++ [NL]
  ++ context ++ [NL; NL]
  ++ lit "### Question" ++ [NL]
  ++ user_prompt.

Definition base_system_prompt : str :=
  lit "You are my local AI assistant, backed by a personal memory index (RAG)."
  ++ [NL]
  ++ lit "Use retrieved context when it clearly helps; otherwise answer normally."
  ++ [NL]
  ++ lit "Be concise, technically accurate, and directly actionable."
  ++ [NL].

(** What [run_rag_completion] has settled before it calls the model: the
    request is refused with an HTTP status, or the prompts, the retrieved
    context and the flag are fixed. *)
Inductive prepared :=
| Refused (status_code : Z)
| Prepared (user_prompt system_prompt final_user_message
            rag_context_text : str) (used_rag_flag : bool).

(** [run_rag_completion] up to the call of the model, with the collection
    [get_collection] has opened. *)
Definition prepare_completion (c : gmap str Entry) (cfg : RagCli.RagCfg)
    (messages : list ChatMessage) : prepared :=
  let '(user_parts, system_parts) := split_roles messages [] [] in
  let user_prompt := strip (join [NL; NL] user_parts) in
  let system_extra := strip (join [NL; NL] system_parts) in
  if negb (truthy user_prompt) then Refused 400
  else
    let context := RagCli.retrieve_context c user_prompt cfg in
    let system_prompt :=
      if truthy system_extra then
        base_system_prompt ++ [NL; NL]
        ++ lit "Additional UI/system instructions:" ++ [NL] ++ system_extra
      else base_system_prompt in
    if truthy context then
      Prepared user_prompt system_prompt (wrap_context context user_prompt)
        context true
    else Prepared user_prompt system_prompt user_prompt [] false.

End Callers.
End Callers.

(** ** Sample inputs *)

Module Samples.

(** A toy embedding: one coordinate, the length of the text. *)
Definition embedder : Embedder := {| Vec := Z; embed := λ s, len s |}.

Definition QT : N := 34%N.
Definition quoted (s : str) : str := [QT] ++ s ++ [QT].

(** A line of the live log with its two text fields, newline included,
    and the object [json.loads] makes of it. *)
Definition turn_line (t : string * string) : str :=
  lit "{" ++ quoted (lit "user_prompt") ++ lit ": " ++ quoted (lit t.1)
  ++ lit ", " ++ quoted (lit "assistant_reply") ++ lit ": "
  ++ quoted (lit t.2) ++ lit "}" ++ [NL].

Definition turn_value (t : string * string) : value :=
  JObj [(lit "user_prompt", JStr (lit t.1));
        (lit "assistant_reply", JStr (lit t.2))].

Definition turns : list (string * string) :=
  [("one", "1"); ("two", "2"); ("three", "3"); ("four", "4");
   ("five", "5"); ("six", "6"); ("seven", "7"); ("eight", "8")].

(** [json.loads] on the sample lines; every other text is rejected. *)
Definition loads (s : str) : option value :=
  turn_value <$> (snd <$> list_find (λ t, strip (turn_line t) = s) turns).

Definition never : nat → bool := λ _, false.
Definition only (k : nat) : nat → bool := λ n, Nat.eqb n k.

Definition host (fails : nat → bool) (results : list str * list dict)
    : @Host embedder :=
  {| json_loads := loads; py_repr := λ _, [];
     fails := fails; query := λ _ _ _, results |}.

Definition log8 : list str := turn_line <$> turns.


Definition fresh : @World embedder := @mkWorld embedder ∅ None 0.
Definition at5 : @World embedder := @mkWorld embedder ∅ (Some 5) 0.

Definition live_entry : @Entry embedder :=
  @mkEntry embedder (lit "User: hi")
    [(lit "source", JStr Ingest.live_tag); (lit "used_rag", JBool false)]
    (8 : Z).

Definition export_entry : @Entry embedder :=
  @mkEntry embedder (lit "old chunk")
    [(lit "source", JStr RagIndex.export_tag); (lit "role", JStr (lit "user"))]
    (9 : Z).

(** One record of each partition. *)
Definition mixed : @World embedder :=
  @mkWorld embedder (<[lit "live-cli-1" := live_entry]>
             (<[lit "chatgpt-0" := export_entry]> ∅)) (Some 1) 0.

Definition messages : list (value * value * str) :=
  [(JStr (lit "Trip"), JStr (lit "user"), lit "hello" ++ [NL] ++ lit "there")].

(** Three query results whose formatted pieces have 30, 30 and 10
    characters. *)
Definition results3 : list str * list dict :=
  ([lit "eleven char"; lit "twelve char"; lit "ok"],
   [[]; [];
    [(lit "conversation_title", JStr []); (lit "role", JStr [])]]).

Definition cfg50 : RagCli.RagCfg := RagCli.mkRagCfg None (Some 50).

(** A log with a line that parses, but not to an object. *)
Definition poison_loads (s : str) : option value :=
  if bool_decide (s = lit "42") then Some (JInt 42) else loads s.

Definition host_poison : @Host embedder :=
  {| json_loads := poison_loads; py_repr := λ _, [];
     fails := never; query := λ _ _ _, ([], []) |}.

Definition poison_log : list str :=
  [turn_line ("one", "1"); lit "42" ++ [NL]; turn_line ("three", "3")].

Definition later5 : @World embedder := @mkWorld embedder ∅ (Some 5) 7.

(** An export directory without [conversations.json]: a file with one
    conversation, a file that cannot be loaded, and a file with a list
    of conversations. *)
Definition node (role_ : string) (parts : list value) : value :=
  JObj [(lit "message",
         JObj [(lit "author", JObj [(lit "role", JStr (lit role_))]);
               (lit "content", JObj [(lit "parts", JArr parts)])])].

Definition conversation (title : string) (nodes : list (str * value))
    : value :=
  JObj [(lit "title", JStr (lit title)); (lit "mapping", JObj nodes)].

Definition file_a : str * option value :=
  (lit "a",
   Some (conversation "Trip"
           [(lit "n1", node "user" [JStr (lit "  hello "); JInt 3;
                                    JStr (lit "there")]);
            (lit "n2", JObj [(lit "message", JNull)])])).

Definition file_b : str * option value :=
  (lit "b",
   Some (JArr [conversation "Garden"
                 [(lit "n1", node "assistant" [JStr (lit "water")])]])).

Definition export_dir : Loader.ExportDir :=
  Loader.mkExportDir None [file_a; (lit "broken", None); file_b].

(** An export whose second file holds a list with a conversation, then a
    number where a conversation should be, then another conversation. *)
Definition file_c : str * option value :=
  (lit "c",
   Some (JArr [conversation "Garden"
                 [(lit "n1", node "assistant" [JStr (lit "water")])];
               JInt 1;
               conversation "Books"
                 [(lit "n1", node "user" [JStr (lit "read")])]])).

Definition broken_dir : Loader.ExportDir :=
  Loader.mkExportDir None [file_a; file_c; file_b].


(** A line of the live log as [brain_api.log_interaction] writes it, for a
    host whose [json.loads] gives the record back. *)
Definition logged : value :=
  Callers.log_record (lit "2024-01-01T00:00:00+00:00") (lit "web")
    (lit "local") true (lit " hi ") (lit "wrapped hi") (lit "context")
    (lit "hello").

Definition host_logged : @Host embedder :=
  {| json_loads := λ s, if bool_decide (s = lit "{logged}") then Some logged
                        else None;
     py_repr := λ _, []; fails := never; query := λ _ _ _, ([], []) |}.

Definition logged_log : list str := [lit "{logged}" ++ [NL]].

End Samples.

(** * Properties *)

(** ** Strings *)

Section StrFacts.

Lemma lstrip_length (s : str) : (length (lstrip s) ≤ length s)%nat.
Proof. induction s as [|c s IH]; simpl; [lia|]. destruct (isspace c); simpl; lia. Qed.

Lemma lstrip_tight (s : str) : tight_front s → lstrip s = s.
Proof.
  destruct s as [|c s]; [done|]. intros Hc. simpl.
  by rewrite (Hc c eq_refl).
Qed.

Lemma lstrip_fixed (s : str) : lstrip s = s → tight_front s.
Proof.
  destruct s as [|c s]; intros Hs d Hd; [done|]. simpl in *.
  injection Hd as ->. destruct (isspace d) eqn:E; [|done].
  pose proof (lstrip_length s) as Hl. rewrite Hs in Hl. simpl in Hl. lia.
Qed.

Lemma lstrip_is_tight (s : str) : tight_front (lstrip s).
Proof.
  induction s as [|c s IH]; simpl; [by intros ?|].
  destruct (isspace c) eqn:E; [done|]. intros d [= <-]. done.
Qed.

Lemma lstrip_app_keep (s t : str) (c : N) :
  isspace c = false → lstrip (s ++ c :: t) = lstrip s ++ c :: t.
Proof.
  intros Hc. induction s as [|d s IH]; simpl; [by rewrite Hc|].
  destruct (isspace d); done.
Qed.

Lemma rstrip_length (s : str) : (length (rstrip s) ≤ length s)%nat.
Proof.
  unfold rstrip. rewrite length_reverse.
  etrans; [apply lstrip_length|]. by rewrite length_reverse.
Qed.

Lemma rstrip_tight (s : str) : tight_back s → rstrip s = s.
Proof.
  intros Hs. unfold rstrip. rewrite lstrip_tight, reverse_involutive; [done|].
  intros c. rewrite head_reverse. apply Hs.
Qed.

Lemma rstrip_is_tight (s : str) : tight_back (rstrip s).
Proof.
  intros c. unfold rstrip. rewrite last_reverse. apply lstrip_is_tight.
Qed.

Lemma rstrip_keeps_front (s : str) : tight_front s → tight_front (rstrip s).
Proof.
  destruct s as [|c s]; [done|]. intros Hc d.
  unfold rstrip. rewrite reverse_cons.
  rewrite lstrip_app_keep by (by apply Hc).
  rewrite reverse_snoc. intros [= <-]. by apply Hc.
Qed.

Lemma strip_tight (s : str) : tight_front s → tight_back s → strip s = s.
Proof.
  intros Hf Hb. unfold strip. rewrite (lstrip_tight s Hf). by apply rstrip_tight.
Qed.

Lemma strip_is_tight (s : str) : tight_front (strip s) ∧ tight_back (strip s).
Proof.
  split; unfold strip.
  - apply rstrip_keeps_front, lstrip_is_tight.
  - apply rstrip_is_tight.
Qed.

Lemma strip_fixed (s : str) : strip s = s → tight_front s ∧ tight_back s.
Proof. intros <-. apply strip_is_tight. Qed.

Lemma strip_idemp (s : str) : strip (strip s) = strip s.
Proof. destruct (strip_is_tight s). by apply strip_tight. Qed.

Lemma join_cons (sep p : str) (ps : list str) :
  ps ≠ [] → join sep (p :: ps) = p ++ sep ++ join sep ps.
Proof. by destruct ps. Qed.

Lemma join_app (sep : str) (ps qs : list str) :
  ps ≠ [] → qs ≠ [] →
  join sep (ps ++ qs) = join sep ps ++ sep ++ join sep qs.
Proof.
  intros Hp Hq. induction ps as [|p ps IH]; [done|].
  destruct ps as [|p' ps].
  - simpl. by destruct qs.
  - change ((p :: p' :: ps) ++ qs) with (p :: ((p' :: ps) ++ qs)).
    rewrite !join_cons by done. rewrite IH by done. by rewrite <- !app_assoc.
Qed.

Lemma join_concat (sep : str) (gs : list (list str)) :
  Forall (λ g, g ≠ []) gs →
  join sep (join sep <$> gs) = join sep (concat gs).
Proof.
  induction 1 as [|g gs Hg Hgs IH]; [done|].
  destruct gs as [|g' gs].
  - simpl. by rewrite app_nil_r.
  - rewrite fmap_cons. rewrite join_cons by done.
    change (concat (g :: g' :: gs)) with (g ++ concat (g' :: gs)).
    rewrite join_app; [by rewrite IH|done|].
    inversion Hgs; subst. simpl. by destruct g'.
Qed.

Lemma split_nl_nonempty (s : str) : split_nl s ≠ [].
Proof.
  induction s as [|c s IH]; simpl; [done|].
  destruct (c =? NL)%N; [done|]. by destruct (split_nl s).
Qed.

Lemma join_split_nl (s : str) : join [NL] (split_nl s) = s.
Proof.
  induction s as [|c s IH]; [done|]. simpl.
  destruct (N.eqb_spec c NL) as [->|Hne].
  - rewrite join_cons by apply split_nl_nonempty. by rewrite IH.
  - pose proof (split_nl_nonempty s) as Hs.
    destruct (split_nl s) as [|l ls]; [done|].
    destruct ls as [|l' ls]; simpl in *; by rewrite <- IH.
Qed.

Lemma join_tight_front (sep : str) (g : list str) :
  Forall (λ l, l ≠ [] ∧ strip l = l) g → tight_front (join sep g).
Proof.
  destruct 1 as [|l g [Hl Hs] Hg]; [done|].
  destruct (strip_fixed l Hs) as [Hf _].
  intros c. destruct g; simpl.
  - apply Hf.
  - destruct l; [done|]. apply Hf.
Qed.

Lemma join_tight_back (sep : str) (g : list str) :
  Forall (λ l, l ≠ [] ∧ strip l = l) g → tight_back (join sep g).
Proof.
  induction 1 as [|l g [Hl Hs] Hg IH]; [done|].
  destruct g as [|l' g].
  - by destruct (strip_fixed l Hs).
  - intros c. rewrite join_cons by done. rewrite !app_assoc, last_app.
    destruct (last (join sep (l' :: g))) as [d|] eqn:E.
    + intros [= <-]. by apply IH.
    + apply last_None in E. inversion Hg as [|? ? [Hl' _] _]; subst.
      exfalso. destruct g; simpl in E; [done|]. by destruct l'.
Qed.

End StrFacts.

(** ** The chunker *)

Section ChunkerFacts.

Lemma sum_len_snoc (current : list str) (line : str) :
  sum_len (current ++ [line]) = sum_len current + len line.
Proof.
  unfold sum_len. induction current as [|x xs IH]; simpl; [lia|].
  rewrite IH. lia.
Qed.

Lemma truthy_nonempty {A} (l : list A) : truthy l = true ↔ l ≠ [].
Proof. by destruct l. Qed.

(** The loop cuts [current ++ lines] into consecutive runs and emits the
    stripped join of each. *)
Lemma chunk_loop_groups (max_chars : Z) (lines chunks current : list str) :
  current = [] ∨ group_ok max_chars current →
  ∃ gs : list (list str),
    Forall (group_ok max_chars) gs ∧
    concat gs = current ++ lines ∧
    chunk_loop max_chars lines chunks current
    = chunks ++ ((λ g, strip (join [NL] g)) <$> gs).
Proof.
  revert chunks current.
  induction lines as [|line rest IH]; intros chunks current Hcur; simpl.
  - destruct current as [|l current].
    + exists []. split; [constructor|]. split; [done|]. simpl. by rewrite app_nil_r.
    + exists [l :: current]. destruct Hcur as [|Hcur]; [done|].
      split; [by constructor|]. split; [by simpl; rewrite !app_nil_r|done].
  - destruct (sum_len current + len line + 1 >? max_chars) eqn:Hover;
      destruct (truthy current) eqn:Hne; simpl.
    + destruct (IH (chunks ++ [strip (join [NL] current)]) [line])
        as (gs & Hgs & Hcat & ->).
      { right. split; [done|by left]. }
      apply truthy_nonempty in Hne. destruct Hcur as [|Hcur]; [done|].
      exists (current :: gs). split; [by constructor|]. split.
      * simpl. by rewrite Hcat.
      * rewrite fmap_cons. by rewrite <- app_assoc.
    + destruct current; [simpl|done].
      destruct (IH chunks [line]) as (gs & Hgs & Hcat & ->).
      { right. split; [done|by left]. }
      by exists gs.
    + destruct (IH chunks (current ++ [line])) as (gs & Hgs & Hcat & ->).
      { right. split; [by destruct current|]. right.
        rewrite sum_len_snoc. lia. }
      exists gs. split; [done|]. split; [|done].
      by rewrite Hcat, <- app_assoc.
    + destruct current; [simpl|done].
      destruct (IH chunks [line]) as (gs & Hgs & Hcat & ->).
      { right. split; [done|by left]. }
      by exists gs.
Qed.

Lemma chunk_text_groups (text : str) (max_chars : Z) :
  ∃ gs : list (list str),
    Forall (group_ok max_chars) gs ∧
    concat gs = source_lines text ∧
    chunk_text text max_chars = (λ g, strip (join [NL] g)) <$> gs.
Proof.
  unfold chunk_text, source_lines.
  destruct (truthy (normalize text)); simpl.
  - destruct (chunk_loop_groups max_chars (split_nl (normalize text)) [] [])
      as (gs & Hgs & Hcat & ->); [by left|]. by exists gs.
  - exists []. split; [constructor|done].
Qed.

Lemma normalize_stripped (text : str) : strip (normalize text) = normalize text.
Proof. apply strip_idemp. Qed.

End ChunkerFacts.

(** C3, on the code: with the default bound of 1000, five hundred lines of
    two characters come back as a first chunk of 1496 characters, though no
    line is longer than two characters. The running total leaves out the
    newlines that join the lines already in the buffer. *)
Theorem chunk_text_exceeds_bound :
  let text := text_of_lines (replicate 500 (lit "ab")) in
  Forall (λ line, len line <= default_max_chars)
    (split_nl (normalize text)) ∧
  len <$> chunk_text text default_max_chars = [1496; 2].
Proof.
  split.
  - apply (bool_decide_unpack _). vm_compute. exact I.
  - vm_compute. reflexivity.
Qed.

(** The same with a bound of 5: six lines of one character, and a first
    chunk of seven characters. *)
Lemma chunk_text_exceeds_bound_on_small_input :
  chunk_text (text_of_lines (lit <$> ["a"; "b"; "c"; "d"; "e"; "f"])) 5
  = [text_of_lines (lit <$> ["a"; "b"; "c"; "d"]);
     text_of_lines (lit <$> ["e"; "f"])].
Proof. vm_compute. reflexivity. Qed.

(** C8, on the code: two paragraphs of a thousand characters with a blank
    line between them give three chunks, the middle one empty. *)
Theorem chunk_text_empty_chunk :
  chunk_text (chars 1000 "x" ++ [NL; NL] ++ chars 1000 "y")
    default_max_chars
  = [chars 1000 "x"; []; chars 1000 "y"].
Proof. vm_compute. reflexivity. Qed.

(** C4, as stated, fails: a line of a thousand characters followed by an
    indented line. Each chunk is stripped on its own, so the indentation
    of the second line is gone from the joined chunks. *)
Lemma chunk_roundtrip_counterexample :
  let text := chars 1000 "x" ++ [NL] ++ lit "  y" in
  strip (join [NL] (chunk_text text default_max_chars)) ≠ normalize text.
Proof. vm_compute. intros E. apply (f_equal length) in E. discriminate E. Qed.

(** C4, amended: the chunks are, in order, the stripped newline-joins of
    consecutive non-empty runs of the lines of the normalised text; the
    runs put end to end are exactly those lines, and joining those lines
    with newlines gives back the normalised text. So only white space next
    to a chunk boundary can differ, and when no line of the normalised text
    is empty or begins or ends with white space, joining the chunks with
    newlines and stripping reproduces the normalised text. *)
Theorem chunk_text_roundtrip (text : str) (max_chars : Z) :
  (∃ gs : list (list str),
     Forall (λ g, g ≠ []) gs ∧
     concat gs = source_lines text ∧
     chunk_text text max_chars = (λ g, strip (join [NL] g)) <$> gs) ∧
  join [NL] (source_lines text) = normalize text ∧
  (Forall (λ l, l ≠ [] ∧ strip l = l) (source_lines text) →
   strip (join [NL] (chunk_text text max_chars)) = normalize text).
Proof.
  destruct (chunk_text_groups text max_chars) as (gs & Hgs & Hcat & Hchunks).
  assert (Hne : Forall (λ g : list str, g ≠ []) gs).
  { eapply Forall_impl; [exact Hgs|]. by intros g [? _]. }
  assert (Hjoin : join [NL] (source_lines text) = normalize text).
  { unfold source_lines. destruct (normalize text) eqn:E; [done|].
    simpl truthy. cbv iota. apply join_split_nl. }
  split; [by exists gs|]. split; [done|].
  intros Htight. rewrite Hchunks.
  assert (Hid : (λ g, strip (join [NL] g)) <$> gs = join [NL] <$> gs).
  { apply list_fmap_ext. intros i g Hg.
    assert (Hall : Forall (λ l : str, l ≠ [] ∧ strip l = l) g).
    { apply Forall_forall. intros l Hl.
      rewrite Forall_forall in Htight. apply Htight. rewrite <- Hcat.
      apply list_elem_of_In, in_concat. exists g.
      split; apply list_elem_of_In; [|done].
      by eapply list_elem_of_lookup_2. }
    apply strip_tight; [by apply join_tight_front|by apply join_tight_back]. }
  rewrite Hid, join_concat, Hcat, Hjoin by done.
  apply normalize_stripped.
Qed.

Lemma chunk_text_roundtrip_witness :
  let text := lit "def f():" ++ [CR; NL] ++ lit "return 1" ++ [NL] in
  strip (join [NL] (chunk_text text 10)) = normalize text.
Proof.
  intros text. apply (proj2 (proj2 (chunk_text_roundtrip text 10))).
  apply (bool_decide_unpack _). vm_compute. exact I.
Defined.

(** ** Context assembly *)

Section AssemblerFacts.
Context `{Host}.
Import RagCli.

Lemma sum_len_nonneg (l : list str) : 0 ≤ sum_len l.
Proof. unfold sum_len, len. induction l; simpl; lia. Qed.

Lemma sum_len_cons (x : str) (l : list str) :
  sum_len (x :: l) = len x + sum_len l.
Proof. done. Qed.

(** The loop returns what it was given plus the longest prefix of the
    pieces whose running total stays within the budget. *)
Lemma pack_prefix (max_chars : Z) (pairs : list (str * dict))
    (acc : list str) (total : Z) :
  let ps := (λ p, format_piece p.1 p.2) <$> pairs in
  ∃ n : nat,
    (n ≤ length ps)%nat ∧
    pack max_chars pairs acc total = acc ++ take n ps ∧
    (∀ k, (1 ≤ k ≤ n)%nat → total + sum_len (take k ps) ≤ max_chars) ∧
    ((n < length ps)%nat → total + sum_len (take (S n) ps) > max_chars).
Proof.
  revert acc total.
  induction pairs as [|[doc meta] rest IH]; intros acc total ps; subst ps.
  - exists 0%nat. rewrite app_nil_r.
    split; [done|]. split; [done|]. split; intros; cbn [length fmap list_fmap] in *; lia.
  - rewrite fmap_cons. cbn [pack fst snd length].
    destruct (total + len (format_piece doc meta) >? max_chars) eqn:E.
    + exists 0%nat. rewrite app_nil_r.
      split; [lia|]. split; [done|]. split; [intros; lia|].
      intros _. rewrite firstn_cons, take_0, sum_len_cons.
      change (sum_len []) with 0. lia.
    + destruct (IH (acc ++ [format_piece doc meta])
                  (total + len (format_piece doc meta)))
        as (n & Hn & -> & Hle & Hgt).
      exists (S n). split; [lia|].
      split; [by rewrite firstn_cons, <- app_assoc|]. split.
      * intros [|k] Hk; [lia|]. rewrite firstn_cons, sum_len_cons.
        destruct k as [|k].
        { rewrite take_0. change (sum_len []) with 0. lia. }
        specialize (Hle (S k)). lia.
      * intros Hlt. rewrite firstn_cons, sum_len_cons.
        specialize (Hgt ltac:(lia)). lia.
Qed.

Lemma len_app {A} (l k : list A) : len (l ++ k) = len l + len k.
Proof. unfold len. rewrite length_app. lia. Qed.

Lemma len_join (sep : str) (l : list str) :
  l ≠ [] → len (join sep l) = sum_len l + len sep * (len l - 1).
Proof.
  induction l as [|x l IH]; [done|]. intros _. destruct l as [|y l].
  - rewrite sum_len_cons. change (sum_len []) with 0.
    change (join sep [x]) with x. unfold len. cbn [length]. lia.
  - rewrite join_cons, !len_app, IH, !sum_len_cons by done.
    unfold len. cbn [length]. lia.
Qed.

Lemma assemble_prefix (max_chars : Z) (docs : list str) (metas : list dict) :
  let ps := pieces docs metas in
  ∃ n : nat,
    (n ≤ length ps)%nat ∧
    (∀ k, (1 ≤ k ≤ n)%nat → sum_len (take k ps) ≤ max_chars) ∧
    ((n < length ps)%nat → sum_len (take (S n) ps) > max_chars) ∧
    assemble max_chars docs metas
    = if decide (n = 0%nat) then []
      else header ++ join [NL; NL] (take n ps).
Proof.
  intros ps. subst ps. unfold assemble, pieces.
  destruct (pack_prefix max_chars (zip docs metas) [] 0)
    as (n & Hn & -> & Hle & Hgt).
  rewrite app_nil_l.
  exists n. split; [done|]. split; [intros k Hk; specialize (Hle k Hk); lia|].
  split; [intros Hlt; specialize (Hgt Hlt); lia|].
  destruct n as [|n]; [by rewrite take_0|].
  destruct (_ <$> zip docs metas) as [|p ps']; [simpl in Hn; lia|]. done.
Qed.

End AssemblerFacts.

(** C7: the assembler keeps the longest prefix of the formatted pieces, in
    the order the store returned them, whose running total of lengths stays
    within [max_chars], and stops at the first piece that would exceed it.
    With a budget of 50 and pieces of 30, 30 and 10 characters only the
    first is kept and the result is not empty; with no candidate the result
    is the empty string. *)
Theorem retrieve_context_greedy `{Host} (c : gmap str Entry) (q : str)
    (cfg : RagCli.RagCfg) (docs : list str) (metas : list dict) :
  query c q (default 8 (RagCli.top_k cfg)) = (docs, metas) →
  let max_chars := default 8000 (RagCli.max_context_chars cfg) in
  let ps := pieces docs metas in
  (∃ n : nat,
     (n ≤ length ps)%nat ∧
     (∀ k, (1 ≤ k ≤ n)%nat → sum_len (take k ps) ≤ max_chars) ∧
     ((n < length ps)%nat → sum_len (take (S n) ps) > max_chars) ∧
     RagCli.retrieve_context c q cfg
     = if decide (n = 0%nat) then []
       else RagCli.header ++ join [NL; NL] (take n ps)) ∧
  (max_chars = 50 →
   ∀ p1 p2 p3, ps = [p1; p2; p3] →
     len p1 = 30 → len p2 = 30 → len p3 = 10 →
     RagCli.retrieve_context c q cfg = RagCli.header ++ p1 ∧
     RagCli.retrieve_context c q cfg ≠ []) ∧
  (docs = [] → RagCli.retrieve_context c q cfg = []).
Proof.
  intros Hq max_chars ps.
  assert (Hrc : RagCli.retrieve_context c q cfg
                = RagCli.assemble max_chars docs metas).
  { unfold RagCli.retrieve_context. by rewrite Hq. }
  rewrite Hrc.
  destruct (assemble_prefix max_chars docs metas)
    as (n & Hn & Hle & Hgt & Hout). fold ps in Hn, Hle, Hgt, Hout.
  split; [by exists n|]. split.
  - intros Hmax p1 p2 p3 Hps L1 L2 L3. rewrite Hps in *.
    assert (n = 1%nat) as ->.
    { cbn [length] in *. destruct n as [|[|n]].
      - specialize (Hgt ltac:(lia)).
        rewrite firstn_cons, take_0, sum_len_cons in Hgt.
        change (sum_len []) with 0 in Hgt. lia.
      - done.
      - specialize (Hle 2%nat ltac:(lia)).
        rewrite !firstn_cons, take_0, !sum_len_cons in Hle.
        change (sum_len []) with 0 in Hle. lia. }
    rewrite Hout. simpl. split; [done|]. by destruct RagCli.header.
  - intros ->. done.
Qed.

(** C10: the budget bounds the sum of the lengths of the kept pieces only.
    A non-empty result is the header, the kept pieces and two newlines
    between neighbours, so its length is the header's plus that sum plus
    [2 * (n - 1)]; and there are inputs for which it is longer than
    [max_chars]. *)
Theorem retrieve_context_budget_excludes_header `{Host}
    (c : gmap str Entry) (q : str) (cfg : RagCli.RagCfg)
    (docs : list str) (metas : list dict) :
  query c q (default 8 (RagCli.top_k cfg)) = (docs, metas) →
  let max_chars := default 8000 (RagCli.max_context_chars cfg) in
  let ps := pieces docs metas in
  let out := RagCli.retrieve_context c q cfg in
  (out ≠ [] →
   ∃ n : nat,
     (1 ≤ n ≤ length ps)%nat ∧
     sum_len (take n ps) ≤ max_chars ∧
     len out = len RagCli.header + sum_len (take n ps)
               + 2 * (Z.of_nat n - 1)) ∧
  (∃ (max_chars' : Z) (docs' : list str) (metas' : list dict),
     RagCli.assemble max_chars' docs' metas' ≠ [] ∧
     len (RagCli.assemble max_chars' docs' metas') > max_chars').
Proof.
  intros Hq max_chars ps out. split.
  - assert (Hrc : out = RagCli.assemble max_chars docs metas).
    { unfold out, RagCli.retrieve_context. by rewrite Hq. }
    rewrite Hrc.
    destruct (assemble_prefix max_chars docs metas)
      as (n & Hn & Hle & _ & ->). fold ps in Hn, Hle |- *.
    destruct (decide (n = 0%nat)) as [->|Hn0]; [done|]. intros _.
    exists n. split; [lia|]. split; [apply Hle; lia|].
    assert (take n ps ≠ []) as Hne.
    { destruct n; [done|]. destruct ps; [simpl in Hn; lia|done]. }
    rewrite len_app, len_join by done.
    replace (len (take n ps)) with (Z.of_nat n).
    + change (len [NL; NL]) with 2. lia.
    + unfold len. rewrite length_take. lia.
  - exists 50, [lit "hello"], [[]]. split.
    + vm_compute. discriminate.
    + vm_compute. reflexivity.
Qed.

(** ** Runs: what every step leaves in place *)

Section Frames.
Context `{Host}.

Lemma bind_run {A B} (m : M A) (f : A → M B) (w : World) :
  (m ≫= f) w
  = match m w with
    | (w', Ok a) => f a w'
    | (w', Raise e) => (w', Raise e)
    end.
Proof. reflexivity. Qed.

Lemma ret_bind_run {A B} (a : A) (f : A → M B) (w : World) :
  (mret a ≫= f) w = f a w.
Proof. reflexivity. Qed.

Variable R : World → World → Prop.
Hypothesis R_refl : ∀ w, R w w.
Hypothesis R_trans : ∀ w1 w2 w3, R w1 w2 → R w2 w3 → R w1 w3.

Lemma respects_ret {A} (a : A) : respects R (mret a).
Proof. intros w. apply R_refl. Qed.

Lemma respects_raise {A} (e : exn) : respects R (raise (A:=A) e).
Proof. intros w. apply R_refl. Qed.

Lemma respects_bind {A B} (m : M A) (f : A → M B) :
  respects R m → (∀ a, respects R (f a)) → respects R (m ≫= f).
Proof.
  intros Hm Hf w. rewrite bind_run. specialize (Hm w).
  destruct (m w) as [w' [a|e]]; simpl in *; [|done].
  eapply R_trans; [exact Hm|apply Hf].
Qed.

Lemma respects_try_pass (m : M unit) : respects R m → respects R (try_pass m).
Proof.
  intros Hm w. unfold try_pass. specialize (Hm w).
  by destruct (m w) as [w' [a|e]].
Qed.

Lemma respects_for_each {A S} (xs : list A) (body : S → A → M S) (s : S) :
  (∀ s x, respects R (body s x)) → respects R (for_each xs body s).
Proof.
  intros Hb. revert s. induction xs as [|x xs IH]; intros s; simpl.
  - apply respects_ret.
  - apply respects_bind; [apply Hb|apply IH].
Qed.

End Frames.

(** ** The rebuild leaves the other partition alone *)

Section Partition.
Context `{Host}.

Lemma add_record_keeps (c : gmap str Entry) (r : str * Entry)
    (id : str) (e : Entry) :
  c !! id = Some e → add_record c r !! id = Some e.
Proof.
  intros Hc. unfold add_record. destruct r as [i x]; simpl.
  destruct (c !! i) eqn:E; [done|].
  rewrite lookup_insert_ne; [done|]. intros ->. congruence.
Qed.

Lemma add_rows_keeps (ds : list str) (es : list Vec) (ms : list dict)
    (is_ : list str) (c : gmap str Entry) (id : str) (e : Entry) :
  c !! id = Some e → add_rows ds es ms is_ c !! id = Some e.
Proof.
  unfold add_rows. generalize (rows ds es ms is_). intros rs. revert c.
  induction rs as [|r rs IH]; intros c Hc; simpl; [done|].
  by apply IH, add_record_keeps.
Qed.

Lemma keeps_others_refl (w : World) : keeps_others w w.
Proof. by intros id e. Qed.

Lemma keeps_others_trans (w1 w2 w3 : World) :
  keeps_others w1 w2 → keeps_others w2 w3 → keeps_others w1 w3.
Proof. intros H12 H23 id e He Hm. apply H23; [by apply H12|done]. Qed.

Lemma delete_keeps (key text : str) :
  key = lit "source" → text = RagIndex.export_tag →
  respects keeps_others (collection_delete key text).
Proof.
  intros -> -> w id e He Hm. unfold collection_delete.
  destruct (fails (clock w)); simpl; [done|].
  unfold delete_where. by apply map_lookup_filter_Some.
Qed.

Lemma encode_keeps (ds : list str) : respects keeps_others (model_encode ds).
Proof.
  intros w id e He Hm. unfold model_encode. by destruct (fails (clock w)).
Qed.

Lemma add_keeps (ds : list str) (es : list Vec) (ms : list dict)
    (is_ : list str) :
  respects keeps_others (collection_add ds es ms is_).
Proof.
  intros w id e He Hm. unfold collection_add.
  destruct (fails (clock w)); simpl; [done|]. by apply add_rows_keeps.
Qed.

Lemma insert_batch_keeps (b : Batch) : respects keeps_others (insert_batch b).
Proof.
  apply (respects_bind _ keeps_others_trans); [apply encode_keeps|].
  intros es. apply add_keeps.
Qed.

Lemma build_index_keeps (export : Loader.gen (value * value * str)) :
  respects keeps_others (RagIndex.build_index export).
Proof.
  pose proof keeps_others_refl as Hr. pose proof keeps_others_trans as Ht.
  unfold RagIndex.build_index.
  apply (respects_bind _ Ht); [|intros _].
  { by apply respects_try_pass, delete_keeps. }
  apply (respects_bind _ Ht); [|intros [b n]].
  - apply (respects_for_each _ Hr Ht). intros st [[title role] text].
    apply (respects_for_each _ Hr Ht). intros [b n] chunk.
    unfold RagIndex.index_chunk.
    destruct (_ >=? 128); [|by apply respects_ret].
    apply (respects_bind _ Ht); [apply insert_batch_keeps|].
    intros _. by apply respects_ret.
  - destruct export.2 as [e|]; [by apply respects_raise|].
    simpl. destruct (truthy (docs b));
      [apply insert_batch_keeps|by apply respects_ret].
Qed.

End Partition.

(** C1: whatever the collection holds, whatever the loader yields and
    however it ends, and whatever fails on the way, the world [build_index]
    leaves (on return or on an exception) still has every record that the
    filter [source = chatgpt_export] does not match, with the same
    document, metadata and embedding; so every record tagged [live_cli]
    that was there before the rebuild is there after it. *)
Theorem build_index_partition_isolation `{Host}
    (export : Loader.gen (value * value * str)) (w : World)
    (id : str) (e : Entry) :
  collection w !! id = Some e →
  (matches_where (lit "source") RagIndex.export_tag e = false →
   collection (RagIndex.build_index export w).1 !! id = Some e) ∧
  (dict_get (metadata e) (lit "source") JNull = JStr Ingest.live_tag →
   collection (RagIndex.build_index export w).1 !! id = Some e).
Proof.
  intros He. split.
  - intros Hm. by apply (build_index_keeps export w).
  - intros Hlive. apply (build_index_keeps export w); [done|].
    unfold matches_where. rewrite Hlive. by vm_compute.
Qed.

(** ** Failures of the external calls *)

Section Failures.
Context `{Host}.

Lemma faithful_ret {A} (a : A) : faithful (mret a).
Proof. intros w. simpl. split; [done|]. intros; lia. Qed.

Lemma faithful_bind {A B} (m : M A) (f : A → M B) :
  faithful m → (∀ a, faithful (f a)) → faithful (m ≫= f).
Proof.
  intros Hm Hf w. rewrite bind_run. specialize (Hm w).
  destruct (m w) as [w1 [a|e]]; [|done].
  specialize (Hf a w1). destruct (f a w1) as [w2 [b|e]].
  - destruct Hm as [Hle1 Hm], Hf as [Hle2 Hf]. split; [lia|].
    intros n Hn. destruct (decide (n < clock w1)%nat);
      [apply Hm|apply Hf]; lia.
  - destruct Hm as [Hle1 Hm], Hf as (-> & Hlt & Hlast & Hf).
    split; [done|]. split; [lia|]. split; [done|].
    intros n Hn. destruct (decide (n < clock w1)%nat);
      [apply Hm|apply Hf]; lia.
Qed.

Lemma faithful_for_each {A S} (xs : list A) (body : S → A → M S) (s : S) :
  (∀ s x, faithful (body s x)) → faithful (for_each xs body s).
Proof.
  intros Hb. revert s. induction xs as [|x xs IH]; intros s; simpl.
  - apply faithful_ret.
  - apply faithful_bind; [apply Hb|apply IH].
Qed.

Lemma faithful_encode (ds : list str) : faithful (model_encode ds).
Proof.
  intros w. unfold model_encode. destruct (fails (clock w)) eqn:E; simpl.
  - split; [done|]. split; [lia|]. split; [done|]. intros; lia.
  - split; [lia|]. intros n Hn. by replace n with (clock w) by lia.
Qed.

Lemma faithful_add (ds : list str) (es : list Vec) (ms : list dict)
    (is_ : list str) :
  faithful (collection_add ds es ms is_).
Proof.
  intros w. unfold collection_add. destruct (fails (clock w)) eqn:E; simpl.
  - split; [done|]. split; [lia|]. split; [done|]. intros; lia.
  - split; [lia|]. intros n Hn. by replace n with (clock w) by lia.
Qed.

Lemma faithful_insert_batch (b : Batch) : faithful (insert_batch b).
Proof.
  apply faithful_bind; [apply faithful_encode|]. intros es. apply faithful_add.
Qed.

Lemma faithful_index_loop (messages : list (value * value * str))
    (st : Batch * Z) :
  faithful (for_each messages RagIndex.index_message st).
Proof.
  apply faithful_for_each. intros st' [[title role] text].
  apply faithful_for_each. intros [b n] chunk.
  unfold RagIndex.index_chunk.
  destruct (_ >=? 128); [|by apply faithful_ret].
  apply faithful_bind; [apply faithful_insert_batch|].
  intros _. by apply faithful_ret.
Qed.

(** When the loader ends without an exception, the steps after the
    deletion are faithful to the failure schedule. *)
Lemma faithful_index_all (messages : list (value * value * str)) :
  faithful (index_all (messages, None)).
Proof.
  unfold index_all. apply faithful_bind; [|intros [b n]].
  - apply faithful_index_loop.
  - simpl. destruct (truthy (docs b));
      [apply faithful_insert_batch|by apply faithful_ret].
Qed.

(** How the steps after the deletion end, whatever the loader does: they
    return, no call made having failed, and the loader has ended without
    an exception; or they raise [ExternalError] at the first failing call,
    the last one made; or they raise the exception of the loader, no call
    made having failed. *)
Lemma index_all_ends (export : Loader.gen (value * value * str))
    (w : World) :
  match index_all export w with
  | (w', Ok _) =>
      export.2 = None ∧ (clock w ≤ clock w')%nat ∧
      ∀ n, (clock w ≤ n < clock w')%nat → fails n = false
  | (w', Raise e) =>
      (e = ExternalError ∧ (clock w < clock w')%nat ∧
       fails (pred (clock w')) = true ∧
       ∀ n, (clock w ≤ n < pred (clock w'))%nat → fails n = false) ∨
      (export.2 = Some e ∧ (clock w ≤ clock w')%nat ∧
       ∀ n, (clock w ≤ n < clock w')%nat → fails n = false)
  end.
Proof.
  destruct export as [messages [e|]].
  - unfold index_all. cbn [fst snd]. rewrite bind_run.
    pose proof (faithful_index_loop messages (no_batch, 0) w) as Hf.
    destruct (for_each messages RagIndex.index_message (no_batch, 0) w)
      as [w1 [st|e1]].
    + right. by destruct Hf.
    + by left.
  - pose proof (faithful_index_all messages w) as Hf.
    destruct (index_all (messages, None) w) as [w' [[]|e]].
    + by destruct Hf.
    + by left.
Qed.

Lemma build_index_steps (export : Loader.gen (value * value * str))
    (w : World) :
  RagIndex.build_index export w = index_all export (after_delete w).
Proof.
  unfold RagIndex.build_index, index_all, after_delete.
  rewrite bind_run. unfold try_pass, collection_delete.
  by destruct (fails (clock w)).
Qed.

Lemma after_delete_clock (w : World) : clock (after_delete w) = S (clock w).
Proof. unfold after_delete. by destruct (fails (clock w)). Qed.

Lemma insert_batch_atomic (b : Batch) (w : World) :
  fails (clock w) = true ∨ fails (S (clock w)) = true →
  (insert_batch b w).2 = Raise ExternalError ∧
  collection (insert_batch b w).1 = collection w.
Proof.
  intros Hf. unfold insert_batch. rewrite bind_run.
  unfold model_encode, collection_add.
  destruct (fails (clock w)) eqn:E0; [done|]. simpl.
  destruct Hf as [|Hf]; [done|]. by rewrite Hf.
Qed.

End Failures.

(** C9: a failure of the deletion of step 1 is swallowed and never
    propagates: the run goes on as [index_all] from the same collection,
    and when no later call fails it ends as the loader does: it returns
    when the loader has yielded all its messages, and raises the loader's
    own exception when a malformed export ends the loader. A failing
    embedding or add call is never swallowed: if any call made after step
    1 failed, [build_index] raises [ExternalError]; and a batch whose
    embedding or add fails leaves the collection as it was. *)
Theorem build_index_failure_handling `{Host}
    (export : Loader.gen (value * value * str)) (w : World) :
  (fails (clock w) = true →
   RagIndex.build_index export w = index_all export (tick w)) ∧
  ((∀ n, (clock w < n)%nat → fails n = false) →
   (RagIndex.build_index export w).2
   = match export.2 with
     | None => Ok tt
     | Some e => Raise e
     end) ∧
  (∀ n, (clock w < n < clock (RagIndex.build_index export w).1)%nat →
        fails n = true →
        (RagIndex.build_index export w).2 = Raise ExternalError) ∧
  (∀ (b : Batch) (w0 : World),
     fails (clock w0) = true ∨ fails (S (clock w0)) = true →
     (insert_batch b w0).2 = Raise ExternalError ∧
     collection (insert_batch b w0).1 = collection w0).
Proof.
  rewrite build_index_steps.
  pose proof (index_all_ends export (after_delete w)) as Hf.
  pose proof (after_delete_clock w) as Hc.
  split; [|split; [|split]].
  - intros Hd. unfold after_delete. by rewrite Hd.
  - intros Hok.
    destruct (index_all export (after_delete w)) as [w' [[]|e]]; simpl.
    + destruct Hf as (-> & _). done.
    + destruct Hf as [(_ & Hlt & Hlast & _)|(-> & _)]; [|done].
      rewrite Hok in Hlast; [done|lia].
  - intros n Hn Hfail.
    destruct (index_all export (after_delete w)) as [w' [[]|e]]; simpl in *.
    + destruct Hf as (_ & _ & Hf). rewrite Hf in Hfail; [done|lia].
    + destruct Hf as [(-> & _)|(_ & _ & Hf)]; [done|].
      rewrite Hf in Hfail; [done|lia].
  - apply insert_batch_atomic.
Qed.

(** ** Incremental ingestion *)

Section IngestFacts.
Context `{Host}.
Import Ingest.

Lemma scan_nothing (i : Z) (lines : list str) (last_line : Z) :
  (∀ (k : nat) (line : str), lines !! k = Some line →
     i + Z.of_nat k ≤ last_line ∨ is_noise line = true) →
  scan i lines last_line = [].
Proof.
  revert i. induction lines as [|line rest IH]; intros i Hall; [done|].
  assert (Hrest : scan (i + 1) rest last_line = []).
  { apply IH. intros k l Hk. destruct (Hall (S k) l Hk); [left; lia|by right]. }
  simpl. rewrite Hrest.
  destruct (Z.leb_spec i last_line) as [|Hgt]; [done|].
  destruct (Hall 0%nat line eq_refl) as [|Hn]; [lia|].
  unfold is_noise in Hn. destruct (truthy (strip line)); [|done].
  simpl in *. by destruct (json_loads (strip line)).
Qed.

Lemma scan_pass (i : Z) (ls1 ls2 : list str) (last_line : Z) :
  Forall (λ l, i + len ls1 - 1 ≤ last_line ∨ is_noise l = true) ls1 →
  scan i (ls1 ++ ls2) last_line = scan (i + len ls1) ls2 last_line.
Proof.
  revert i. induction ls1 as [|line rest IH]; intros i Hall.
  - simpl. f_equal. unfold len. simpl. lia.
  - inversion Hall as [|? ? Hl Hrest]; subst.
    assert (Hgo : scan (i + 1) (rest ++ ls2) last_line
                  = scan (i + len (line :: rest)) ls2 last_line).
    { rewrite IH.
      - f_equal. unfold len. cbn [length]. lia.
      - eapply Forall_impl; [exact Hrest|]. intros l [Hle|Hn]; [left|by right].
        unfold len in *. cbn [length] in Hle. lia. }
    cbn [app scan]. rewrite Hgo.
    destruct (Z.leb_spec i last_line) as [|Hgt]; [done|].
    destruct Hl as [Hle|Hn].
    { unfold len in Hle. cbn [length] in Hle. lia. }
    unfold is_noise in Hn. destruct (truthy (strip line)); [|done].
    simpl in *. by destruct (json_loads (strip line)).
Qed.

Lemma scan_above (i : Z) (lines : list str) (last_line : Z) :
  Forall (λ p, last_line < p.1) (scan i lines last_line).
Proof.
  revert i. induction lines as [|line rest IH]; intros i; simpl; [done|].
  destruct (Z.leb_spec i last_line) as [|Hgt]; [done|].
  destruct (truthy (strip line)); simpl; [|done].
  destruct (json_loads (strip line)); [|done].
  constructor; [simpl; lia|done].
Qed.

(** Raising the cursor only drops yielded pairs. *)
Lemma scan_raise (i : Z) (lines : list str) (c c' : Z) :
  c ≤ c' →
  scan i lines c' = filter (λ p, c' < p.1) (scan i lines c).
Proof.
  intros Hc. revert i. induction lines as [|line rest IH]; intros i; [done|].
  simpl. rewrite IH.
  destruct (Z.leb_spec i c) as [|Hgt].
  { destruct (Z.leb_spec i c'); [done|lia]. }
  destruct (truthy (strip line)); simpl.
  2:{ by destruct (i <=? c'). }
  destruct (json_loads (strip line)) as [rec|].
  2:{ by destruct (i <=? c'). }
  destruct (Z.leb_spec i c').
  - rewrite filter_cons_False; [done|simpl; lia].
  - rewrite filter_cons_True; [done|simpl; lia].
Qed.

Lemma high_ge (last_line : Z) (items : list (Z * value)) :
  last_line ≤ high last_line items ∧
  Forall (λ p, p.1 ≤ high last_line items) items.
Proof.
  unfold high. revert last_line.
  induction items as [|p items IH]; intros c; simpl; [by split|].
  destruct (IH (Z.max c p.1)) as [Hle Hall]. split; [lia|].
  constructor; [lia|done].
Qed.

Lemma scan_at_high (i : Z) (lines : list str) (c : Z) :
  scan i lines (high c (scan i lines c)) = [].
Proof.
  destruct (high_ge c (scan i lines c)) as [Hle Hall].
  rewrite (scan_raise i lines c) by done.
  generalize dependent (high c (scan i lines c)). intros n _ Hall.
  induction Hall as [|p ps Hp Hps IH]; [done|].
  rewrite filter_cons_False; [done|lia].
Qed.

Lemma scan_above_iter (log : option (list str)) (last_line : Z) :
  Forall (λ p, last_line < p.1) (iter_new_records log last_line).
Proof. destruct log; [apply scan_above|constructor]. Qed.

Lemma insert_batch_state (b : Batch) (w : World) :
  state_file (insert_batch b w).1 = state_file w.
Proof.
  unfold insert_batch. rewrite bind_run. unfold model_encode, collection_add.
  destruct (fails (clock w)); [done|]. simpl.
  by destruct (fails (S (clock w))).
Qed.

Lemma ingest_record_ok (b b' : Batch) (nl nl' ln : Z) (rec : value)
    (w w' : World) :
  ingest_record (b, nl) (ln, rec) w = (w', Ok (b', nl')) →
  nl' = Z.max nl ln ∧ state_file w' = state_file w.
Proof.
  unfold ingest_record, rec_get. destruct rec as [| | | | |d]; try done.
  rewrite ret_bind_run, bind_run. unfold py_strip at 1.
  destruct (dict_get d (lit "user_prompt") (JStr [])) as [| | |up| |];
    try done.
  cbn [mret M_ret]. rewrite ret_bind_run, bind_run. unfold py_strip at 1.
  destruct (dict_get d (lit "assistant_reply") (JStr [])) as [| | |ar| |];
    try done.
  cbn [mret M_ret]. rewrite !ret_bind_run.
  destruct (negb (truthy (strip up)) && negb (truthy (strip ar))).
  { intros [= <- <- <-]. done. }
  destruct (_ >=? 64).
  - rewrite bind_run.
    match goal with |- context [insert_batch ?x w] =>
      pose proof (insert_batch_state x w) as Hs;
      destruct (insert_batch x w) as [w1 [[]|e]] end; [|done].
    cbn [mret M_ret]. intros [= <- <- <-]. done.
  - intros [= <- <- <-]. done.
Qed.

Lemma for_each_ingest_ok (items : list (Z * value)) (b b' : Batch)
    (nl nl' : Z) (w w' : World) :
  for_each items ingest_record (b, nl) w = (w', Ok (b', nl')) →
  nl' = high nl items ∧ state_file w' = state_file w.
Proof.
  revert b nl w. induction items as [|[ln rec] items IH]; intros b nl w.
  - simpl. by intros [= <- <- <-].
  - cbn [for_each]. rewrite bind_run.
    destruct (ingest_record (b, nl) (ln, rec) w) as [w1 [[b1 nl1]|e]] eqn:E;
      [|done].
    apply ingest_record_ok in E as [-> Hs1]. intros Hrest.
    apply IH in Hrest as [-> Hs2]. split; [done|congruence].
Qed.

(** With nothing yielded the run touches nothing. *)
Lemma main_idle (log : option (list str)) (w : World) :
  iter_new_records log (default 0 (state_file w)) = [] →
  main log w = (w, Ok tt).
Proof.
  intros Hnone. unfold main. rewrite bind_run. unfold load_state.
  rewrite Hnone. cbn [for_each]. rewrite bind_run. cbn [mret M_ret].
  rewrite bind_run. cbn [fst snd docs no_batch truthy mret M_ret].
  by rewrite Z.gtb_ltb, Z.ltb_irrefl.
Qed.

(** Where a run that returns leaves the cursor. *)
Lemma main_cursor (log : option (list str)) (w w' : World) :
  main log w = (w', Ok tt) →
  state_file w'
  = let c := default 0 (state_file w) in
    match iter_new_records log c with
    | [] => state_file w
    | items => Some (high c items)
    end.
Proof.
  cbn zeta. destruct (iter_new_records log (default 0 (state_file w)))
    as [|p items] eqn:Hit.
  { rewrite main_idle by done. by intros [= <-]. }
  unfold main. rewrite bind_run. unfold load_state. rewrite Hit.
  rewrite bind_run.
  destruct (for_each (p :: items) ingest_record
              (no_batch, default 0 (state_file w)) w)
    as [w1 [[b1 nl1]|e]] eqn:E; [|done].
  apply for_each_ingest_ok in E as [-> Hs1].
  rewrite bind_run. cbn [fst snd].
  assert (Hflush : ∀ w2 r, (if truthy (docs b1) then insert_batch b1
                            else mret tt) w1 = (w2, r) →
                           state_file w2 = state_file w).
  { intros w2 r. destruct (truthy (docs b1)).
    - intros E2. pose proof (insert_batch_state b1 w1) as Hs.
      rewrite E2 in Hs. simpl in Hs. congruence.
    - intros [= <- <-]. done. }
  destruct ((if truthy (docs b1) then insert_batch b1 else mret tt) w1)
    as [w2 [[]|e]] eqn:E2; [|done].
  assert (default 0 (state_file w) < high (default 0 (state_file w)) (p :: items)).
  { pose proof (scan_above_iter log (default 0 (state_file w))) as Ha.
    rewrite Hit in Ha. inversion Ha as [|? ? Hp _]; subst.
    destruct (high_ge (default 0 (state_file w)) (p :: items)) as [_ Hh].
    inversion Hh; subst. lia. }
  rewrite Z.gtb_ltb. destruct (Z.ltb_spec (default 0 (state_file w))
    (high (default 0 (state_file w)) (p :: items))); [|lia].
  unfold save_state. by intros [= <-].
Qed.

End IngestFacts.


(** C6: a second run over the same log, after a run that returned, changes
    nothing: no external call, the same collection, the same persisted
    cursor. The same holds for any run whose cursor is at or beyond the end
    of the log. The lines at or before the cursor are not looked at: what
    the generator yields does not depend on what they contain. *)
Theorem ingest_idempotent `{Host} (log : option (list str)) (w w1 : World) :
  (Ingest.main log w = (w1, Ok tt) → Ingest.main log w1 = (w1, Ok tt)) ∧
  (∀ lines : list str, log = Some lines →
     len lines ≤ default 0 (state_file w) →
     Ingest.main log w = (w, Ok tt)) ∧
  (∀ (pre pre' post : list str) (last_line : Z),
     length pre = length pre' → len pre ≤ last_line →
     Ingest.iter_new_records (Some (pre ++ post)) last_line
     = Ingest.iter_new_records (Some (pre' ++ post)) last_line).
Proof.
  split; [|split].
  - intros Hrun. pose proof (main_cursor log w w1 Hrun) as Hc. cbn zeta in Hc.
    destruct (Ingest.iter_new_records log (default 0 (state_file w)))
      as [|p items] eqn:Hit.
    + rewrite main_idle in Hrun by done. injection Hrun as <-.
      by apply main_idle.
    + apply main_idle. rewrite Hc.
      change (default 0 (Some ?x)) with x. rewrite <- Hit.
      destruct log as [lines|]; [|done]. apply scan_at_high.
  - intros lines -> Hlen. apply main_idle. simpl. apply scan_nothing.
    intros k line Hk. left. apply lookup_lt_Some in Hk. unfold len in Hlen. lia.
  - intros pre pre' post last_line Hlen Hle. simpl.
    rewrite !scan_pass.
    + unfold len. by rewrite Hlen.
    + apply Forall_forall. intros l _. left. unfold len in *. lia.
    + apply Forall_forall. intros l _. left. lia.
Qed.

(** ** Resuming after line 5 *)

Section Resume.
Context `{Host}.
Import Ingest.

(** What the loop body does with the record of a valid line while the
    batch is short of 64: one more document, tagged [live_cli], under the
    id of its line; no external call. *)
Lemma ingest_record_keep (b : Batch) (nl ln : Z) (line : str) (w : World) :
  valid_turn line → len (docs b) + 1 < 64 →
  ∃ (rec : value) (text : str) (meta : dict),
    json_loads (strip line) = Some rec ∧
    dict_get meta (lit "source") JNull = JStr live_tag ∧
    ingest_record (b, nl) (ln, rec) w
    = (w, Ok (mkBatch (docs b ++ [text]) (metadatas b ++ [meta])
                (ids b ++ [live_id ln]), Z.max nl ln)).
Proof.
  intros (_ & d & up & ar & Hload & Hup & Har & Hkeep) Hlen.
  exists (JObj d). eexists. eexists. split; [exact Hload|].
  unfold ingest_record, rec_get.
  rewrite ret_bind_run, bind_run, Hup. cbn [py_strip mret M_ret].
  rewrite ret_bind_run, bind_run, Har. cbn [py_strip mret M_ret].
  rewrite !ret_bind_run, Hkeep. cbn [docs].
  match goal with |- context [?x >=? 64] =>
    destruct (Z.geb_spec x 64) as [Hge|_] end.
  { rewrite len_app in Hge. unfold len at 2 in Hge. simpl in Hge. lia. }
  split; [|reflexivity]. reflexivity.
Qed.

Lemma live_ids_distinct :
  live_id 6 ≠ live_id 7 ∧ live_id 6 ≠ live_id 8 ∧ live_id 7 ≠ live_id 8.
Proof. vm_compute. repeat split; discriminate. Qed.

Lemma scan_three (i : Z) (l1 l2 l3 : str) (r1 r2 r3 : value)
    (last_line : Z) :
  last_line < i →
  truthy (strip l1) = true → json_loads (strip l1) = Some r1 →
  truthy (strip l2) = true → json_loads (strip l2) = Some r2 →
  truthy (strip l3) = true → json_loads (strip l3) = Some r3 →
  scan i [l1; l2; l3] last_line = [(i, r1); (i + 1, r2); (i + 1 + 1, r3)].
Proof.
  intros Hi T1 L1 T2 L2 T3 L3. cbn [scan].
  rewrite T1, T2, T3, L1, L2, L3. cbn [negb].
  destruct (Z.leb_spec i last_line); [lia|].
  destruct (Z.leb_spec (i + 1) last_line); [lia|].
  destruct (Z.leb_spec (i + 1 + 1) last_line); [lia|]. done.
Qed.

(** The run over a log of eight lines with the cursor at 5, as one
    equation: three rows are added in one batch, the cursor is saved as 8,
    two external calls are made. *)
Lemma main_resume (old : list str) (l6 l7 l8 : str) (w : World) :
  length old = 5%nat → state_file w = Some 5 →
  valid_turn l6 → valid_turn l7 → valid_turn l8 →
  fails (clock w) = false → fails (S (clock w)) = false →
  ∃ (t6 t7 t8 : str) (m6 m7 m8 : dict),
    dict_get m6 (lit "source") JNull = JStr live_tag ∧
    dict_get m7 (lit "source") JNull = JStr live_tag ∧
    dict_get m8 (lit "source") JNull = JStr live_tag ∧
    main (Some (old ++ [l6; l7; l8])) w
    = (mkWorld
         (add_rows [t6; t7; t8] (embed <$> [t6; t7; t8]) [m6; m7; m8]
            [live_id 6; live_id 7; live_id 8] (collection w))
         (Some 8) (S (S (clock w))), Ok tt).
Proof.
  intros Hold Hst V6 V7 V8 F0 F1.
  destruct (ingest_record_keep no_batch 5 6 l6 w V6 ltac:(done))
    as (r6 & t6 & m6 & L6 & S6 & E6).
  destruct (ingest_record_keep (mkBatch [t6] [m6] [live_id 6])
              (Z.max 5 6) 7 l7 w V7 ltac:(done))
    as (r7 & t7 & m7 & L7 & S7 & E7).
  destruct (ingest_record_keep
              (mkBatch [t6; t7] [m6; m7] [live_id 6; live_id 7])
              (Z.max (Z.max 5 6) 7) 8 l8 w V8 ltac:(done))
    as (r8 & t8 & m8 & L8 & S8 & E8).
  exists t6, t7, t8, m6, m7, m8. repeat (split; [done|]).
  unfold main. rewrite bind_run. unfold load_state. rewrite Hst.
  change (default 0 (Some 5)) with 5. unfold iter_new_records.
  rewrite scan_pass.
  2:{ apply Forall_forall. intros l _. left. unfold len. rewrite Hold. done. }
  replace (1 + len old) with 6 by (unfold len; rewrite Hold; done).
  rewrite (scan_three 6 l6 l7 l8 r6 r7 r8 5 ltac:(done)
             (proj1 V6) L6 (proj1 V7) L7 (proj1 V8) L8).
  change (6 + 1 + 1) with 8. change (6 + 1) with 7.
  cbn [for_each]. rewrite !bind_run.
  rewrite E6. cbn [docs metadatas ids no_batch app].
  rewrite bind_run, E7. cbn [docs metadatas ids app].
  rewrite bind_run, E8. cbn [docs metadatas ids app mret M_ret fst snd truthy].
  rewrite bind_run. unfold insert_batch. rewrite bind_run. unfold model_encode. rewrite F0.
  unfold collection_add. cbn [tick clock collection state_file].
  rewrite F1. done.
Qed.

End Resume.

(** C5: with the cursor at 5 and three valid, non-empty lines appended to a
    log of five, a run in which the embedding and the add succeed returns,
    saves the cursor 8 and adds exactly three records, under the ids made
    from the line numbers 6, 7 and 8 (which the collection did not hold),
    each tagged [live_cli]; every record that was there stays as it was. *)
Theorem ingest_resume_exact `{Host} (old : list str) (l6 l7 l8 : str)
    (w : World) :
  length old = 5%nat → state_file w = Some 5 →
  valid_turn l6 → valid_turn l7 → valid_turn l8 →
  fails (clock w) = false → fails (S (clock w)) = false →
  collection w !! live_id 6 = None →
  collection w !! live_id 7 = None →
  collection w !! live_id 8 = None →
  let run := Ingest.main (Some (old ++ [l6; l7; l8])) w in
  run.2 = Ok tt ∧
  state_file run.1 = Some 8 ∧
  dom (collection run.1)
  = {[live_id 6; live_id 7; live_id 8]} ∪ dom (collection w) ∧
  size (collection run.1) = (size (collection w) + 3)%nat ∧
  (∀ (id : str) (e : Entry),
     collection w !! id = Some e → collection run.1 !! id = Some e) ∧
  (∀ n : Z, n ∈ [6; 7; 8] →
     ∃ e : Entry,
       collection run.1 !! live_id n = Some e ∧
       dict_get (metadata e) (lit "source") JNull = JStr Ingest.live_tag).
Proof.
  intros Hold Hst V6 V7 V8 F0 F1 N6 N7 N8 run.
  destruct (main_resume old l6 l7 l8 w Hold Hst V6 V7 V8 F0 F1)
    as (t6 & t7 & t8 & m6 & m7 & m8 & S6 & S7 & S8 & Hrun).
  subst run. rewrite Hrun. cbn [fst snd collection state_file].
  destruct live_ids_distinct as (D67 & D68 & D78).
  assert (Hadd :
    add_rows [t6; t7; t8] (embed <$> [t6; t7; t8]) [m6; m7; m8]
      [live_id 6; live_id 7; live_id 8] (collection w)
    = <[live_id 8 := mkEntry t8 m8 (embed t8)]>
        (<[live_id 7 := mkEntry t7 m7 (embed t7)]>
           (<[live_id 6 := mkEntry t6 m6 (embed t6)]> (collection w)))).
  { unfold add_rows. cbn [fmap list_fmap rows foldl].
    unfold add_record at 3. cbn [fst snd]. rewrite N6.
    unfold add_record at 2. cbn [fst snd].
    rewrite lookup_insert_ne, N7 by done.
    unfold add_record. cbn [fst snd].
    by rewrite !lookup_insert_ne, N8 by done. }
  rewrite Hadd. split; [done|]. split; [done|]. split; [|split; [|split]].
  - rewrite !dom_insert_L. apply set_eq. intros x.
    rewrite !elem_of_union, !elem_of_singleton. tauto.
  - rewrite !map_size_insert_None; [lia|done|..].
    + by rewrite lookup_insert_ne.
    + by rewrite !lookup_insert_ne.
  - intros id e He.
    rewrite !lookup_insert_ne; [done|intros <-; congruence..].
  - intros n Hn. apply list_elem_of_In in Hn. simpl in Hn.
    destruct Hn as [<-|[<-|[<-|[]]]].
    + eexists. rewrite !lookup_insert_ne, lookup_insert_eq by done.
      split; [done|]. exact S6.
    + eexists. rewrite lookup_insert_ne, lookup_insert_eq by done.
      split; [done|]. exact S7.
    + eexists. rewrite lookup_insert_eq. split; [done|]. exact S8.
Qed.

(** ** The statements at sample inputs *)

Section Witnesses.
Import Samples.

Lemma build_index_partition_isolation_witness :
  collection
    (RagIndex.build_index (H0 := host never ([], []))
       (messages, None) mixed).1
    !! lit "live-cli-1"
  = Some live_entry.
Proof.
  apply (build_index_partition_isolation (H0 := host never ([], []))
           (messages, None) mixed (lit "live-cli-1") live_entry).
  - vm_compute. reflexivity.
  - vm_compute. reflexivity.
Defined.

(** In the same run the record of the export partition is replaced by the
    chunk of the sample message. *)
Lemma build_index_replaces_export_sample :
  collection
    (RagIndex.build_index (H0 := host never ([], []))
       (messages, None) mixed).1
    !! lit "chatgpt-0"
  = Some (@mkEntry embedder (lit "hello" ++ [NL] ++ lit "there")
            [(lit "source", JStr RagIndex.export_tag);
             (lit "conversation_title", JStr (lit "Trip"));
             (lit "role", JStr (lit "user"))]
            (11 : Z)).
Proof. vm_compute. reflexivity. Qed.



Lemma ingest_resume_exact_witness :
  let run := Ingest.main (H0 := host never ([], [])) (Some log8) at5 in
  run.2 = Ok tt ∧ state_file run.1 = Some 8 ∧
  dom (collection run.1) = {[live_id 6; live_id 7; live_id 8]} ∧
  size (collection run.1) = 3%nat.
Proof.
  pose proof (ingest_resume_exact (H0 := host never ([], []))
                (take 5 log8) (turn_line ("six", "6"))
                (turn_line ("seven", "7")) (turn_line ("eight", "8")) at5)
    as Hw.
  destruct Hw as (Hret & Hcur & Hdom & Hsize & _).
  - reflexivity.
  - reflexivity.
  - split; [vm_compute; reflexivity|].
    eexists _, _, _. repeat split; vm_compute; reflexivity.
  - split; [vm_compute; reflexivity|].
    eexists _, _, _. repeat split; vm_compute; reflexivity.
  - split; [vm_compute; reflexivity|].
    eexists _, _, _. repeat split; vm_compute; reflexivity.
  - reflexivity.
  - reflexivity.
  - apply lookup_empty.
  - apply lookup_empty.
  - apply lookup_empty.
  - split; [exact Hret|]. split; [exact Hcur|]. split.
    + etrans; [exact Hdom|]. unfold at5. cbn [collection].
      rewrite dom_empty_L. apply union_empty_r_L.
    + etrans; [exact Hsize|]. unfold at5. cbn [collection].
      by rewrite map_size_empty.
Defined.

Lemma ingest_idempotent_witness :
  let w1 := (Ingest.main (H0 := host never ([], [])) (Some log8) at5).1 in
  Ingest.main (H0 := host never ([], [])) (Some log8) w1 = (w1, Ok tt).
Proof.
  intros w1.
  apply (proj1 (ingest_idempotent (H0 := host never ([], []))
                  (Some log8) at5 w1)).
  vm_compute. reflexivity.
Defined.

Lemma retrieve_context_greedy_witness :
  RagCli.retrieve_context (H0 := host never results3) ∅ (lit "trip") cfg50
  = RagCli.header ++ RagCli.format_piece (H0 := host never results3)
                       (lit "eleven char") [].
Proof.
  pose proof (retrieve_context_greedy (H0 := host never results3)
                ∅ (lit "trip") cfg50 results3.1 results3.2 eq_refl) as Hw.
  cbn zeta in Hw. destruct Hw as (_ & Hw & _).
  apply (Hw eq_refl _ _ _ eq_refl); vm_compute; reflexivity.
Defined.

Lemma retrieve_context_budget_excludes_header_witness :
  ∃ n : nat,
    (1 ≤ n ≤ 3)%nat ∧
    len (RagCli.retrieve_context (H0 := host never results3) ∅
           (lit "trip") cfg50)
    = len RagCli.header
      + sum_len (take n (pieces (H0 := host never results3)
                           results3.1 results3.2))
      + 2 * (Z.of_nat n - 1).
Proof.
  pose proof (retrieve_context_budget_excludes_header
                (H0 := host never results3)
                ∅ (lit "trip") cfg50 results3.1 results3.2 eq_refl) as Hw.
  cbn zeta in Hw. destruct Hw as (Hw & _).
  destruct Hw as (n & Hn & _ & Hlen).
  - vm_compute. discriminate.
  - exists n. split; [exact Hn|exact Hlen].
Defined.

Lemma build_index_failure_handling_witness :
  (RagIndex.build_index (H0 := host (only 0) ([], []))
     (messages, None) mixed).2
  = Ok tt ∧
  (RagIndex.build_index (H0 := host (only 0) ([], []))
     (Loader.iter_chatgpt_messages broken_dir) mixed).2
  = Raise AttributeError ∧
  (RagIndex.build_index (H0 := host (only 1) ([], []))
     (messages, None) mixed).2
  = Raise ExternalError ∧
  (RagIndex.build_index (H0 := host (only 2) ([], []))
     (messages, None) mixed).2
  = Raise ExternalError.
Proof.
  split; [|split; [|split]].
  - apply (proj1 (proj2 (build_index_failure_handling
                           (H0 := host (only 0) ([], []))
                           (messages, None) mixed))).
    intros [|n] Hn; [simpl in Hn; lia|reflexivity].
  - apply (proj1 (proj2 (build_index_failure_handling
                           (H0 := host (only 0) ([], []))
                           (Loader.iter_chatgpt_messages broken_dir)
                           mixed))).
    intros [|n] Hn; [simpl in Hn; lia|reflexivity].
  - apply (proj1 (proj2 (proj2 (build_index_failure_handling
                           (H0 := host (only 1) ([], []))
                           (messages, None) mixed)))
             1%nat); [vm_compute; lia|reflexivity].
  - apply (proj1 (proj2 (proj2 (build_index_failure_handling
                           (H0 := host (only 2) ([], []))
                           (messages, None) mixed)))
             2%nat); [vm_compute; lia|reflexivity].
Defined.

End Witnesses.

(** * Further properties *)

(** ** Ids *)

Section Ids.

Lemma lit_inj (s t : string) : lit s = lit t → s = t.
Proof.
  unfold lit. intros Hst.
  rewrite <- (String.string_of_list_ascii_of_string s),
          <- (String.string_of_list_ascii_of_string t).
  f_equal. revert Hst.
  generalize (String.list_ascii_of_string s) (String.list_ascii_of_string t).
  intros l. induction l as [|a l IH]; intros [|b k]; simpl; try done.
  intros [= Hab Hlk]. f_equal; [|by apply IH].
  by rewrite <- (Ascii.ascii_N_embedding a), <- (Ascii.ascii_N_embedding b), Hab.
Qed.

Lemma to_int_proper (n : Z) :
  Z.to_int n ≠ Decimal.Pos Decimal.Nil ∧ Z.to_int n ≠ Decimal.Neg Decimal.Nil.
Proof.
  destruct n as [|p|p]; simpl; split; try done; intros [= Hp];
    by apply (DecimalPos.Unsigned.to_uint_nonnil p).
Qed.

Lemma str_of_int_inj (n m : Z) : str_of_int n = str_of_int m → n = m.
Proof.
  unfold str_of_int. intros Hnm. apply lit_inj in Hnm.
  destruct (to_int_proper n) as [Hn1 Hn2], (to_int_proper m) as [Hm1 Hm2].
  pose proof (NilZero.isi (Z.to_int n) Hn1 Hn2) as En.
  pose proof (NilZero.isi (Z.to_int m) Hm1 Hm2) as Em.
  rewrite Hnm, Em in En. injection En as En.
  rewrite <- (DecimalZ.of_to n), <- (DecimalZ.of_to m). by rewrite En.
Qed.

End Ids.

(** X1: the ids of the two partitions never collide: two lines of the live
    log get the same id only if they have the same line number, two chunks
    of a rebuild only if they have the same counter, and no live id is an
    export id. *)
Theorem ids_collision_free (n m : Z) :
  (live_id n = live_id m ↔ n = m) ∧
  (export_id n = export_id m ↔ n = m) ∧
  bool_decide (live_id n = export_id m) = false.
Proof.
  split; [|split].
  - split; [|by intros ->]. unfold live_id. intros Hnm.
    apply app_inv_head in Hnm. by apply str_of_int_inj.
  - split; [|by intros ->]. unfold export_id. intros Hnm.
    apply app_inv_head in Hnm. by apply str_of_int_inj.
  - apply bool_decide_eq_false. unfold live_id, export_id.
    intros Hnm. vm_compute in Hnm. discriminate Hnm.
Qed.

(** ** More on the chunker *)

Section ChunkerMore.

Lemma lstrip_nil_iff (s : str) :
  lstrip s = [] ↔ Forall (λ c, isspace c = true) s.
Proof.
  induction s as [|c s IH]; simpl; [by split; [constructor|]|].
  destruct (isspace c) eqn:E.
  - rewrite IH. split; [by constructor|]. by inversion 1.
  - split; [done|]. inversion 1; congruence.
Qed.

Lemma strip_nil_iff (s : str) :
  strip s = [] ↔ Forall (λ c, isspace c = true) s.
Proof.
  rewrite <- lstrip_nil_iff. unfold strip, rstrip. split.
  - intros Hs. apply (f_equal reverse) in Hs.
    rewrite reverse_involutive in Hs. change (reverse []) with (@nil N) in Hs.
    destruct (lstrip s) as [|c u] eqn:E; [done|]. exfalso.
    assert (Hc : isspace c = false).
    { apply (lstrip_is_tight s c). by rewrite E. }
    rewrite reverse_cons, lstrip_app_keep in Hs by done.
    by destruct (lstrip (reverse u)).
  - by intros ->.
Qed.

Lemma replace_crlf_space (s : str) :
  Forall (λ c, isspace c = true) (replace_crlf s)
  ↔ Forall (λ c, isspace c = true) s.
Proof.
  assert (Hgen : ∀ n s, (length s ≤ n)%nat →
    (Forall (λ c, isspace c = true) (replace_crlf s)
     ↔ Forall (λ c, isspace c = true) s)).
  { clear s. induction n as [|n IH]; intros [|c [|d s]] Hlen; simpl in *;
      try done; try lia.
    destruct (N.eqb_spec c CR) as [->|Hc]; simpl.
    - destruct (N.eqb_spec d NL) as [->|Hd].
      + rewrite !Forall_cons, (IH s) by lia. split; [|tauto].
        intros [_ Hs]. repeat split; done.
      + rewrite !Forall_cons. change (replace_crlf (d :: s)) with
          (replace_crlf (d :: s)). rewrite (IH (d :: s)) by (simpl; lia).
        by rewrite Forall_cons.
    - rewrite !Forall_cons, (IH (d :: s)) by (simpl; lia).
      by rewrite Forall_cons. }
  by apply (Hgen (length s)).
Qed.

Lemma len_split_nl (s : str) :
  len s = sum_len (split_nl s) + (len (split_nl s) - 1).
Proof.
  induction s as [|c s IH]; [done|]. simpl.
  pose proof (split_nl_nonempty s) as Hne.
  destruct (c =? NL)%N.
  - rewrite sum_len_cons. unfold len in *. cbn [length]. lia.
  - destruct (split_nl s) as [|l ls]; [done|].
    rewrite !sum_len_cons in *. unfold len in *. cbn [length] in *. lia.
Qed.

(** A buffer and lines that fit the bound together are never flushed
    before the end. *)
Lemma chunk_loop_fits (max_chars : Z) (lines chunks current : list str) :
  sum_len current + sum_len lines + Z.of_nat (length lines) ≤ max_chars →
  current ++ lines ≠ [] →
  chunk_loop max_chars lines chunks current
  = chunks ++ [strip (join [NL] (current ++ lines))].
Proof.
  revert current. induction lines as [|line rest IH]; intros current Hfit Hne.
  - rewrite app_nil_r in *. simpl. by destruct current.
  - cbn [chunk_loop]. rewrite sum_len_cons in Hfit. cbn [length] in Hfit.
    pose proof (sum_len_nonneg rest) as Hrest.
    destruct (Z.gtb_spec (sum_len current + len line + 1) max_chars) as [Hgt|_].
    { lia. }
    cbn [andb]. rewrite IH.
    + by rewrite <- app_assoc.
    + rewrite sum_len_snoc. lia.
    + by destruct current.
Qed.

Lemma strip_length (s : str) : len (strip s) ≤ len s.
Proof.
  unfold strip, len. pose proof (rstrip_length (lstrip s)).
  pose proof (lstrip_length s). lia.
Qed.

End ChunkerMore.

(** X2: [chunk_text] returns no chunk exactly for a text made of white
    space only (the empty text included); any other text gives at least
    one chunk, whatever the bound. *)
Theorem chunk_text_blank (text : str) (max_chars : Z) :
  chunk_text text max_chars = [] ↔ Forall (λ c, isspace c = true) text.
Proof.
  rewrite <- replace_crlf_space, <- strip_nil_iff.
  change (strip (replace_crlf text)) with (normalize text).
  destruct (chunk_text_groups text max_chars) as (gs & Hgs & Hcat & ->).
  unfold source_lines in Hcat. split.
  - intros Hnil. apply fmap_nil_inv in Hnil. subst gs.
    destruct (truthy (normalize text)) eqn:T.
    + symmetry in Hcat. by apply split_nl_nonempty in Hcat.
    + by destruct (normalize text).
  - intros Hnorm. rewrite Hnorm in Hcat. cbn [truthy] in Hcat.
    destruct gs as [|g gs]; [done|]. inversion Hgs as [|? ? [Hg _] _]; subst.
    by destruct g.
Qed.

(** X3: a text that, once normalised, is shorter than the bound comes back
    as one chunk, the normalised text itself. *)
Theorem chunk_text_fits (text : str) (max_chars : Z) :
  normalize text ≠ [] → len (normalize text) < max_chars →
  chunk_text text max_chars = [normalize text].
Proof.
  intros Hne Hlen. unfold chunk_text. cbn zeta.
  destruct (normalize text) as [|c s] eqn:E; [done|]. cbn [truthy negb].
  rewrite chunk_loop_fits.
  - rewrite !app_nil_l, join_split_nl, <- E. by rewrite normalize_stripped.
  - pose proof (len_split_nl (c :: s)) as Hs. unfold len in *.
    change (sum_len []) with 0. lia.
  - apply split_nl_nonempty.
Qed.

(** X4: the bound the chunker keeps. Every chunk is the stripped join of a
    run of consecutive lines; the run is a single line, or its lines hold
    at most [max_chars - 1] characters together, the joining newlines not
    counted, so the chunk has at most [max_chars - 1] characters plus one
    per joining newline. A line of [max_chars] characters or more is
    always a chunk of its own. *)
Theorem chunk_text_soft_bound (text : str) (max_chars : Z) :
  ∃ gs : list (list str),
    concat gs = source_lines text ∧
    chunk_text text max_chars = (λ g, strip (join [NL] g)) <$> gs ∧
    Forall (λ g,
      (∃ l, g = [l]) ∨
      (sum_len g + 1 ≤ max_chars ∧
       len (strip (join [NL] g)) ≤ max_chars - 1 + (len g - 1))) gs ∧
    Forall (λ g, ∀ l, l ∈ g → max_chars ≤ len l → g = [l]) gs.
Proof.
  destruct (chunk_text_groups text max_chars) as (gs & Hgs & Hcat & Hch).
  exists gs. split; [done|]. split; [done|]. split.
  - eapply Forall_impl; [exact Hgs|]. intros g [Hne [H1|Hsum]].
    + left. destruct g as [|l [|]]; try done. by exists l.
    + right. split; [done|].
      pose proof (strip_length (join [NL] g)) as Hs.
      rewrite len_join in Hs by done. change (len [NL]) with 1 in Hs. lia.
  - eapply Forall_impl; [exact Hgs|]. intros g [Hne [H1|Hsum]] l Hl Hlen.
    + destruct g as [|l' [|]]; try done. apply list_elem_of_singleton in Hl.
      by subst.
    + exfalso. assert (len l ≤ sum_len g); [|lia].
      clear -Hl. induction Hl as [l g|l l' g Hl IH]; rewrite sum_len_cons.
      * pose proof (sum_len_nonneg g). lia.
      * unfold len in *. lia.
Qed.

Lemma chunk_text_fits_witness :
  chunk_text (lit "  hello there" ++ [CR; NL]) default_max_chars
  = [lit "hello there"].
Proof.
  apply (chunk_text_fits (lit "  hello there" ++ [CR; NL]) default_max_chars).
  - vm_compute. discriminate.
  - vm_compute. reflexivity.
Defined.

(** ** More on context assembly *)

(** X5: [retrieve_context] returns the empty string exactly when the query
    gives no candidate or the first formatted piece alone is longer than
    [max_chars]: the pieces after an oversized first hit are never looked
    at. *)
Theorem retrieve_context_empty_iff `{Host} (c : gmap str Entry) (q : str)
    (cfg : RagCli.RagCfg) (docs : list str) (metas : list dict) :
  query c q (default 8 (RagCli.top_k cfg)) = (docs, metas) →
  (RagCli.retrieve_context c q cfg = [] ↔
   match pieces docs metas with
   | [] => True
   | p :: _ => default 8000 (RagCli.max_context_chars cfg) < len p
   end).
Proof.
  intros Hq. unfold RagCli.retrieve_context. rewrite Hq. cbn zeta.
  destruct (assemble_prefix (default 8000 (RagCli.max_context_chars cfg))
              docs metas) as (n & Hn & Hle & Hgt & ->).
  destruct (pieces docs metas) as [|p ps] eqn:E.
  - destruct n; [done|]. simpl in Hn. lia.
  - destruct n as [|n]; cbn [length] in *.
    + split; [intros _|done]. specialize (Hgt ltac:(lia)).
      rewrite firstn_cons, take_0, sum_len_cons in Hgt.
      change (sum_len []) with 0 in Hgt. lia.
    + split.
      * destruct (decide (S n = 0%nat)); [done|]. intros E2.
        apply app_eq_nil in E2 as [E2 _]. vm_compute in E2. discriminate E2.
      * intros Hlong. specialize (Hle 1%nat ltac:(lia)).
        rewrite firstn_cons, take_0, sum_len_cons in Hle.
        change (sum_len []) with 0 in Hle. lia.
Qed.

Lemma pack_mono `{Host} (max_chars max_chars' : Z)
    (pairs : list (str * dict)) :
  max_chars ≤ max_chars' →
  ∃ n : nat,
    RagCli.pack max_chars pairs [] 0
    = take n (RagCli.pack max_chars' pairs [] 0).
Proof.
  intros Hle.
  destruct (pack_prefix max_chars pairs [] 0) as (n & Hn & -> & Hle1 & Hgt1).
  destruct (pack_prefix max_chars' pairs [] 0) as (n' & Hn' & -> & Hle2 & Hgt2).
  cbn zeta in *. rewrite !app_nil_l. exists n.
  destruct (decide (n ≤ n')%nat) as [Hnn|Hnn].
  - rewrite take_take. f_equal. lia.
  - exfalso. specialize (Hgt2 ltac:(lia)).
    specialize (Hle1 (S n') ltac:(lia)). lia.
Qed.

(** X6: a larger budget never loses a snippet: the pieces kept under
    [max_chars] are a prefix of the pieces kept under any larger budget. *)
Theorem pack_monotone `{Host} (max_chars max_chars' : Z)
    (pairs : list (str * dict)) :
  max_chars ≤ max_chars' →
  ∃ n : nat,
    RagCli.pack max_chars pairs [] 0
    = take n (RagCli.pack max_chars' pairs [] 0).
Proof. apply pack_mono. Qed.

Lemma retrieve_context_empty_iff_witness :
  RagCli.retrieve_context (H0 := Samples.host Samples.never Samples.results3)
    ∅ (lit "trip") (RagCli.mkRagCfg None (Some 29))
  = [].
Proof.
  apply (retrieve_context_empty_iff
           (H0 := Samples.host Samples.never Samples.results3)
           ∅ (lit "trip") (RagCli.mkRagCfg None (Some 29))
           Samples.results3.1 Samples.results3.2 eq_refl).
  vm_compute. reflexivity.
Defined.

Lemma pack_monotone_witness :
  ∃ n : nat,
    RagCli.pack (H0 := Samples.host Samples.never Samples.results3) 50
      (zip Samples.results3.1 Samples.results3.2) [] 0
    = take n
        (RagCli.pack (H0 := Samples.host Samples.never Samples.results3) 100
           (zip Samples.results3.1 Samples.results3.2) [] 0).
Proof.
  apply (pack_monotone (H0 := Samples.host Samples.never Samples.results3)
           50 100 (zip Samples.results3.1 Samples.results3.2)).
  lia.
Defined.

(** ** More on incremental ingestion *)

Section IngestMore.
Context `{Host}.
Import Ingest.

Lemma keeps_all_refl (w : World) : keeps_all w w.
Proof. by intros id e. Qed.

Lemma keeps_all_trans (w1 w2 w3 : World) :
  keeps_all w1 w2 → keeps_all w2 w3 → keeps_all w1 w3.
Proof. intros H12 H23 id e He. by apply H23, H12. Qed.

Lemma insert_batch_keeps_all (b : Batch) : respects keeps_all (insert_batch b).
Proof.
  apply (respects_bind _ keeps_all_trans).
  - intros w id e He. unfold model_encode. by destruct (fails (clock w)).
  - intros es w id e He. unfold collection_add.
    destruct (fails (clock w)); simpl; [done|]. by apply add_rows_keeps.
Qed.

Lemma ingest_record_keeps_all (st : Batch * Z) (item : Z * value) :
  respects keeps_all (ingest_record st item).
Proof.
  pose proof keeps_all_refl as Hr. pose proof keeps_all_trans as Ht.
  destruct st as [b nl], item as [ln rec]. unfold ingest_record.
  assert (Hget : ∀ k d, respects keeps_all (rec_get rec k d)).
  { intros k d. unfold rec_get.
    destruct rec; by (apply respects_raise || apply respects_ret). }
  assert (Hstrip : ∀ v, respects keeps_all (py_strip v)).
  { intros v. unfold py_strip.
    destruct v; by (apply respects_raise || apply respects_ret). }
  apply (respects_bind _ Ht); [apply Hget|intros up].
  apply (respects_bind _ Ht); [apply Hstrip|intros user_prompt].
  apply (respects_bind _ Ht); [apply Hget|intros ar].
  apply (respects_bind _ Ht); [apply Hstrip|intros assistant_reply].
  apply (respects_bind _ Ht); [apply Hget|intros timestamp].
  apply (respects_bind _ Ht); [apply Hget|intros model_name].
  apply (respects_bind _ Ht); [apply Hget|intros ur].
  destruct (_ && _); [by apply respects_ret|].
  destruct (_ >=? 64); [|by apply respects_ret].
  apply (respects_bind _ Ht); [apply insert_batch_keeps_all|].
  intros _. by apply respects_ret.
Qed.

Lemma main_keeps_all (log : option (list str)) : respects keeps_all (main log).
Proof.
  pose proof keeps_all_refl as Hr. pose proof keeps_all_trans as Ht.
  unfold main.
  apply (respects_bind _ Ht); [by intros w|intros last_line].
  apply (respects_bind _ Ht); [|intros [b nl]].
  { apply (respects_for_each _ Hr Ht). apply ingest_record_keeps_all. }
  apply (respects_bind _ Ht); [|intros _].
  { cbn [fst]. destruct (truthy (docs b));
      [apply insert_batch_keeps_all|by apply respects_ret]. }
  cbn [snd]. destruct (_ >? _); [by intros w id e|by apply respects_ret].
Qed.

End IngestMore.

(** X7: incremental ingestion is append-only: whatever the log holds and
    whatever fails, every record of the collection before a run is still
    there after it, with the same document, metadata and embedding. *)
Theorem ingest_append_only `{Host} (log : option (list str)) (w : World)
    (id : str) (e : Entry) :
  (collection w !! id = Some e →
   collection (Ingest.main log w).1 !! id = Some e) ∧
  dom (collection w) ⊆ dom (collection (Ingest.main log w).1).
Proof.
  split; [apply (main_keeps_all log w)|].
  intros i Hi. apply elem_of_dom in Hi as [x Hx]. apply elem_of_dom.
  exists x. by apply (main_keeps_all log w).
Qed.

Section IngestCursor.
Context `{Host}.
Import Ingest.

Lemma same_cursor_trans (w1 w2 w3 : World) :
  same_cursor w1 w2 → same_cursor w2 w3 → same_cursor w1 w3.
Proof. unfold same_cursor. congruence. Qed.

Lemma ingest_record_same_cursor (st : Batch * Z) (item : Z * value) :
  respects same_cursor (ingest_record st item).
Proof.
  assert (Hr : ∀ w, same_cursor w w) by done.
  pose proof same_cursor_trans as Ht.
  destruct st as [b nl], item as [ln rec]. unfold ingest_record.
  assert (Hget : ∀ k d, respects same_cursor (rec_get rec k d)).
  { intros k d. unfold rec_get.
    destruct rec; by (apply respects_raise || apply respects_ret). }
  assert (Hstrip : ∀ v, respects same_cursor (py_strip v)).
  { intros v. unfold py_strip.
    destruct v; by (apply respects_raise || apply respects_ret). }
  apply (respects_bind _ Ht); [apply Hget|intros up].
  apply (respects_bind _ Ht); [apply Hstrip|intros user_prompt].
  apply (respects_bind _ Ht); [apply Hget|intros ar].
  apply (respects_bind _ Ht); [apply Hstrip|intros assistant_reply].
  apply (respects_bind _ Ht); [apply Hget|intros timestamp].
  apply (respects_bind _ Ht); [apply Hget|intros model_name].
  apply (respects_bind _ Ht); [apply Hget|intros ur].
  destruct (_ && _); [by apply respects_ret|].
  destruct (_ >=? 64); [|by apply respects_ret].
  apply (respects_bind _ Ht); [intros w; apply insert_batch_state|].
  intros _. by apply respects_ret.
Qed.

Lemma main_raise_cursor (log : option (list str)) (w : World) (e : exn) :
  (main log w).2 = Raise e → state_file (main log w).1 = state_file w.
Proof.
  assert (Hr : ∀ w, same_cursor w w) by done.
  unfold main. rewrite bind_run. unfold load_state. rewrite bind_run.
  pose proof (respects_for_each same_cursor Hr same_cursor_trans
                (iter_new_records log (default 0 (state_file w)))
                ingest_record (no_batch, default 0 (state_file w))
                ingest_record_same_cursor w) as Hloop.
  destruct (for_each _ ingest_record _ w) as [w1 [[b nl]|e1]];
    [|by intros _]. simpl in Hloop.
  rewrite bind_run. cbn [fst snd].
  assert (Hflush : state_file
            ((if truthy (docs b) then insert_batch b else mret tt) w1).1
          = state_file w1).
  { destruct (truthy (docs b)); [apply insert_batch_state|done]. }
  destruct ((if truthy (docs b) then insert_batch b else mret tt) w1)
    as [w2 [[]|e2]]; simpl in Hflush.
  - by destruct (nl >? default 0 (state_file w)).
  - intros _. simpl. unfold same_cursor in Hloop. congruence.
Qed.

Lemma ingest_record_ok_good (st st' : Batch * Z) (ln : Z) (rec : value)
    (w w' : World) :
  ingest_record st (ln, rec) w = (w', Ok st') → bad_record rec = false.
Proof.
  destruct st as [b nl]. unfold ingest_record, rec_get, bad_record.
  destruct rec as [| | | | |d]; try done.
  rewrite ret_bind_run, bind_run. unfold py_strip at 1.
  destruct (dict_get d (lit "user_prompt") (JStr [])) as [| | |up| |];
    try done.
  cbn [mret M_ret]. rewrite ret_bind_run, bind_run. unfold py_strip at 1.
  by destruct (dict_get d (lit "assistant_reply") (JStr [])) as [| | |ar| |].
Qed.

Lemma for_each_ingest_ok_good (items : list (Z * value)) (st st' : Batch * Z)
    (w w' : World) :
  for_each items ingest_record st w = (w', Ok st') →
  Forall (λ item, bad_record item.2 = false) items.
Proof.
  revert st w. induction items as [|[ln rec] items IH]; intros st w;
    [by constructor|].
  cbn [for_each]. rewrite bind_run.
  destruct (ingest_record st (ln, rec) w) as [w1 [st1|e]] eqn:E; [|done].
  intros Hrest. constructor; [by eapply ingest_record_ok_good|by eapply IH].
Qed.

Lemma main_ok_good (log : option (list str)) (w w' : World) :
  main log w = (w', Ok tt) →
  Forall (λ item, bad_record item.2 = false)
    (iter_new_records log (default 0 (state_file w))).
Proof.
  unfold main. rewrite bind_run. unfold load_state. rewrite bind_run.
  destruct (for_each _ ingest_record _ w) as [w1 [st1|e1]] eqn:E; [|done].
  intros _. by eapply for_each_ingest_ok_good.
Qed.

End IngestCursor.

(** X8: the persisted cursor never goes back, and a run that raises leaves
    the state file exactly as it was: it is written once, after the last
    batch has been added. *)
Theorem ingest_cursor_monotone `{Host} (log : option (list str)) (w : World) :
  default 0 (state_file w)
  ≤ default 0 (state_file (Ingest.main log w).1) ∧
  (∀ e : exn, (Ingest.main log w).2 = Raise e →
     state_file (Ingest.main log w).1 = state_file w).
Proof.
  split; [|intros e; apply main_raise_cursor].
  destruct (Ingest.main log w) as [w' [[]|e]] eqn:E.
  - apply main_cursor in E. cbn zeta in E. simpl. rewrite E.
    destruct (Ingest.iter_new_records log (default 0 (state_file w)))
      as [|p items]; [done|].
    change (default 0 (Some ?x)) with x. apply high_ge.
  - pose proof (main_raise_cursor log w e) as Hs. rewrite E in Hs.
    simpl in *. by rewrite Hs.
Qed.

(** X9: one line that parses to something other than an object with
    string texts (a number, a list, [null] for [user_prompt], ...) stops
    every run: the run raises and the cursor stays where it was, so the
    next run meets the same line again. *)
Theorem ingest_poison_line `{Host} (log : option (list str)) (w : World)
    (item : Z * value) :
  item ∈ Ingest.iter_new_records log (default 0 (state_file w)) →
  bad_record item.2 = true →
  ∃ e : exn,
    (Ingest.main log w).2 = Raise e ∧
    state_file (Ingest.main log w).1 = state_file w.
Proof.
  intros Hin Hbad.
  destruct (Ingest.main log w) as [w' [[]|e]] eqn:E.
  - apply main_ok_good in E. rewrite Forall_forall in E.
    specialize (E item Hin). congruence.
  - exists e. split; [done|].
    pose proof (main_raise_cursor log w e) as Hs. rewrite E in Hs.
    by apply Hs.
Qed.

(** ** Adding rows *)

Section AddFacts.
Context `{Embedder}.

Lemma add_record_present (c : gmap str Entry) (r : str * Entry) :
  is_Some (c !! r.1) → add_record c r = c.
Proof. intros [x Hx]. unfold add_record. by rewrite Hx. Qed.

Lemma add_record_holds (c : gmap str Entry) (r : str * Entry) :
  is_Some (add_record c r !! r.1).
Proof.
  unfold add_record. destruct (c !! r.1) eqn:E; [by rewrite E|].
  rewrite lookup_insert_eq. by eexists.
Qed.

Lemma foldl_add_keeps (rs : list (str * Entry)) (c : gmap str Entry)
    (i : str) :
  is_Some (c !! i) → is_Some (foldl add_record c rs !! i).
Proof.
  revert c. induction rs as [|r rs IH]; intros c [x Hx]; simpl; [by eexists|].
  apply IH. exists x. by apply add_record_keeps.
Qed.

Lemma foldl_add_holds (rs : list (str * Entry)) (c : gmap str Entry)
    (r : str * Entry) :
  r ∈ rs → is_Some (foldl add_record c rs !! r.1).
Proof.
  revert c. induction rs as [|r' rs IH]; intros c Hin; [by inversion Hin|].
  simpl. apply elem_of_cons in Hin as [->|Hin].
  - apply foldl_add_keeps, add_record_holds.
  - by apply IH.
Qed.

Lemma foldl_add_absorb (rs : list (str * Entry)) (c : gmap str Entry) :
  Forall (λ r, is_Some (c !! r.1)) rs → foldl add_record c rs = c.
Proof.
  induction 1 as [|r rs Hr Hrs IH]; [done|]. simpl.
  by rewrite add_record_present.
Qed.

(** Adding rows again that were added before changes nothing. *)
Lemma foldl_add_prefix (P R : list (str * Entry)) (c : gmap str Entry) :
  P `prefix_of` R →
  foldl add_record (foldl add_record c P) R = foldl add_record c R.
Proof.
  intros [Q ->]. rewrite !foldl_app. f_equal. apply foldl_add_absorb.
  apply Forall_forall. intros r Hr. by apply foldl_add_holds.
Qed.

Lemma rows_snoc (ds : list str) (es : list Vec) (ms : list dict)
    (is_ : list str) (d : str) (e : Vec) (m : dict) (i : str) :
  length ds = length es → length ds = length ms → length ds = length is_ →
  rows (ds ++ [d]) (es ++ [e]) (ms ++ [m]) (is_ ++ [i])
  = rows ds es ms is_ ++ [(i, mkEntry d m e)].
Proof.
  revert es ms is_.
  induction ds as [|d' ds IH]; intros [|e' es] [|m' ms] [|i' is_];
    simpl; try done.
  intros [= He] [= Hm] [= Hi]. by rewrite IH.
Qed.

Lemma rows_of_snoc (b : Batch) (d : str) (m : dict) (i : str) :
  batch_wf b →
  rows_of (mkBatch (docs b ++ [d]) (metadatas b ++ [m]) (ids b ++ [i]))
  = rows_of b ++ [(i, mkEntry d m (embed d))] ∧
  batch_wf (mkBatch (docs b ++ [d]) (metadatas b ++ [m]) (ids b ++ [i])).
Proof.
  intros [Hm Hi]. unfold rows_of, batch_wf. cbn [docs metadatas ids].
  split.
  - rewrite fmap_app. apply rows_snoc; [by rewrite length_fmap|done..].
  - rewrite !length_app. simpl. lia.
Qed.

End AddFacts.

Section BatchFacts.
Context `{Host}.

(** What a batch insert leaves: the rows added when it returns, nothing
    changed when it raises. *)
Lemma insert_batch_rows (b : Batch) (w : World) :
  match insert_batch b w with
  | (w', Ok _) =>
      collection w' = foldl add_record (collection w) (rows_of b)
  | (w', Raise _) => collection w' = collection w
  end.
Proof.
  unfold insert_batch. rewrite bind_run. unfold model_encode, collection_add.
  destruct (fails (clock w)); [done|]. simpl.
  by destruct (fails (S (clock w))).
Qed.

End BatchFacts.

(** ** What a run of the ingestion adds *)

Section IngestRows.
Context `{Host}.
Import Ingest.

(** One turn of the loop: the rows flushed so far and the rows still in
    the batch are, together, the rows of the batch before and the row of
    the record. *)
Lemma ingest_record_rows (b : Batch) (nl : Z) (item : Z * value) (w : World) :
  batch_wf b →
  match ingest_record (b, nl) item w with
  | (w', Ok (b', _)) =>
      batch_wf b' ∧
      ∃ F, collection w' = foldl add_record (collection w) F ∧
           F ++ rows_of b' = rows_of b ++ omap turn_row [item]
  | (w', Raise _) => collection w' = collection w
  end.
Proof.
  intros Hwf. destruct item as [ln rec].
  unfold ingest_record, rec_get, turn_row. cbn [omap list_omap fst snd].
  destruct rec as [| | | | |d]; try done.
  rewrite ret_bind_run, bind_run. unfold py_strip at 1.
  destruct (dict_get d (lit "user_prompt") (JStr [])) as [| | |up| |];
    try done.
  cbn [mret M_ret]. rewrite ret_bind_run, bind_run. unfold py_strip at 1.
  destruct (dict_get d (lit "assistant_reply") (JStr [])) as [| | |ar| |];
    try done.
  cbn [mret M_ret]. rewrite !ret_bind_run.
  destruct (negb (truthy (strip up)) && negb (truthy (strip ar))).
  { split; [done|]. exists []. by rewrite app_nil_r. }
  cbn zeta.
  match goal with |- context [insert_batch ?x] => set (b2 := x) end.
  match goal with |- context [rows_of b ++ [?r]] => set (row := r) end.
  destruct (rows_of_snoc b (document row.2) (metadata row.2) row.1 Hwf)
    as [Hrows Hwf2].
  change (mkBatch _ _ _) with b2 in Hrows, Hwf2.
  change (mkEntry _ _ _) with row.2 in Hrows.
  change (row.1, row.2) with row in Hrows.
  destruct (len (docs b2) >=? 64).
  - rewrite bind_run. pose proof (insert_batch_rows b2 w) as Hins.
    destruct (insert_batch b2 w) as [w1 [[]|e]]; [|done].
    cbn [mret M_ret]. split; [done|]. exists (rows_of b2).
    split; [done|]. by rewrite app_nil_r.
  - split; [done|]. exists []. by rewrite app_nil_l.
Qed.

(** The loop: the collection holds the rows flushed so far; on return they
    and the pending batch make up all the rows, on an exception they are a
    prefix of them. *)
Lemma for_each_ingest_rows (items : list (Z * value)) (b : Batch) (nl : Z)
    (w : World) :
  batch_wf b →
  ∃ F, collection (for_each items ingest_record (b, nl) w).1
       = foldl add_record (collection w) F ∧
       match (for_each items ingest_record (b, nl) w).2 with
       | Ok (b', _) =>
           batch_wf b' ∧ F ++ rows_of b' = rows_of b ++ omap turn_row items
       | Raise _ => F `prefix_of` rows_of b ++ omap turn_row items
       end.
Proof.
  revert b nl w. induction items as [|item items IH]; intros b nl w Hwf.
  - exists []. simpl. by rewrite app_nil_r.
  - cbn [for_each]. rewrite bind_run.
    pose proof (ingest_record_rows b nl item w Hwf) as Hstep.
    change (item :: items) with ([item] ++ items). rewrite omap_app.
    destruct (ingest_record (b, nl) item w) as [w1 [[b1 nl1]|e]].
    + destruct Hstep as (Hwf1 & F1 & Hc1 & Hr1).
      destruct (IH b1 nl1 w1 Hwf1) as (F & Hc & Hr).
      exists (F1 ++ F). split; [by rewrite Hc, Hc1, foldl_app|].
      destruct (for_each items ingest_record (b1, nl1) w1).2 as [[b' nl']|e].
      * destruct Hr as [Hwf' Hr]. split; [done|].
        by rewrite <- app_assoc, Hr, !app_assoc, Hr1.
      * rewrite app_assoc, <- Hr1, <- app_assoc. by apply prefix_app.
    + exists []. simpl. split; [done|]. apply prefix_nil.
Qed.

(** The whole run. *)
Lemma main_rows (log : option (list str)) (w : World) :
  ∃ F, collection (main log w).1 = foldl add_record (collection w) F ∧
       match (main log w).2 with
       | Ok _ => F = live_rows log (default 0 (state_file w))
       | Raise _ => F `prefix_of` live_rows log (default 0 (state_file w))
       end.
Proof.
  unfold main, live_rows. rewrite bind_run. unfold load_state.
  rewrite bind_run.
  destruct (for_each_ingest_rows
              (iter_new_records log (default 0 (state_file w)))
              no_batch (default 0 (state_file w)) w)
    as (F & Hc & Hr); [done|].
  change (rows_of no_batch) with (@nil (str * Entry)) in Hr.
  rewrite app_nil_l in Hr.
  destruct (for_each _ ingest_record _ w) as [w1 [[b nl]|e]];
    simpl in Hc, Hr; [|by exists F].
  destruct Hr as [Hwf Hr]. rewrite bind_run. cbn [fst snd].
  destruct (truthy (docs b)) eqn:T.
  - pose proof (insert_batch_rows b w1) as Hins.
    destruct (insert_batch b w1) as [w2 [[]|e]].
    + exists (F ++ rows_of b). split; [|by destruct (nl >? _)].
      rewrite foldl_app, <- Hc, <- Hins. by destruct (nl >? _).
    + exists F. simpl. split; [congruence|]. rewrite <- Hr.
      by apply prefix_app_r.
  - exists F. cbn [mret M_ret]. split; [by destruct (nl >? _)|].
    assert (rows_of b = []) as Hnil.
    { unfold rows_of. by destruct (docs b). }
    rewrite Hnil, app_nil_r in Hr. by destruct (nl >? _).
Qed.

Lemma ingest_adds_live_rows_aux (log : option (list str)) (w w' : World) :
  main log w = (w', Ok tt) →
  collection w'
  = foldl add_record (collection w)
      (live_rows log (default 0 (state_file w))).
Proof.
  intros Hrun. destruct (main_rows log w) as (F & Hc & Hr).
  rewrite Hrun in Hc, Hr. simpl in Hc, Hr. by rewrite Hc, Hr.
Qed.

End IngestRows.

(** X10: a run that returns has added, in line order, one row for every
    line after the cursor that parsed and has a non-empty prompt or reply:
    its id is made from the line number, its document is the composed
    turn, its metadata is tagged [live_cli], its embedding is that of the
    document. A row whose id the collection already holds is left out. *)
Theorem ingest_adds_live_rows `{Host} (log : option (list str))
    (w w' : World) :
  Ingest.main log w = (w', Ok tt) →
  collection w'
  = foldl add_record (collection w)
      (live_rows log (default 0 (state_file w))).
Proof.
  apply ingest_adds_live_rows_aux.
Qed.

(** X11: retrying after a failure loses and doubles nothing. If a run
    raises (some batches may have been added, the cursor is not written)
    and the next run over the same log returns, collection and cursor are
    what a single run that returns would have left. *)
Theorem ingest_retry_safe `{Host} (log : option (list str))
    (w w1 w2 w0 w3 : World) (e : exn) :
  Ingest.main log w = (w1, Raise e) →
  Ingest.main log w1 = (w2, Ok tt) →
  collection w0 = collection w → state_file w0 = state_file w →
  Ingest.main log w0 = (w3, Ok tt) →
  collection w2 = collection w3 ∧ state_file w2 = state_file w3.
Proof.
  intros Hfail Hretry Hc0 Hs0 Hdirect.
  pose proof (main_raise_cursor log w e) as Hs1.
  destruct (main_rows log w) as (P & HcP & HP).
  rewrite Hfail in Hs1, HcP, HP. simpl in Hs1, HcP, HP.
  specialize (Hs1 eq_refl). split.
  - rewrite (ingest_adds_live_rows_aux log w1 w2 Hretry),
            (ingest_adds_live_rows_aux log w0 w3 Hdirect).
    rewrite Hs1, Hs0, Hc0, HcP. by apply foldl_add_prefix.
  - apply main_cursor in Hretry. apply main_cursor in Hdirect.
    cbn zeta in *. by rewrite Hretry, Hdirect, Hs1, Hs0.
Qed.

(** ** What a rebuild adds *)

Section RebuildRows.
Context `{Host}.
Import RagIndex.

Lemma export_rows_app (xs ys : list (value * value * str)) (doc_id : Z) :
  export_rows (xs ++ ys) doc_id
  = export_rows xs doc_id ++ export_rows ys (doc_id + len xs).
Proof.
  revert doc_id. induction xs as [|[[title role] chunk] xs IH]; intros n.
  - simpl. f_equal. unfold len. simpl. lia.
  - cbn [app export_rows]. rewrite IH. simpl. do 3 f_equal.
    unfold len. cbn [length]. lia.
Qed.

Lemma export_rows_tagged (xs : list (value * value * str)) (doc_id : Z) :
  Forall export_row (export_rows xs doc_id).
Proof.
  revert doc_id. induction xs as [|[[title role] chunk] xs IH]; intros n;
    cbn [export_rows]; constructor; [|apply IH].
  unfold export_row, matches_where. by vm_compute.
Qed.

Lemma message_chunks_one (title role : value) (text : str) :
  message_chunks [(title, role, text)]
  = (λ chunk, (title, role, chunk)) <$> chunk_text text default_max_chars.
Proof. unfold message_chunks. rewrite bind_cons. apply app_nil_r. Qed.

Lemma message_chunks_cons (msg : value * value * str)
    (messages : list (value * value * str)) :
  message_chunks (msg :: messages)
  = message_chunks [msg] ++ message_chunks messages.
Proof.
  unfold message_chunks. rewrite !bind_cons. f_equal. symmetry.
  apply app_nil_r.
Qed.

Lemma index_chunk_rows (title role : value) (b : Batch) (doc_id : Z)
    (chunk : str) (w : World) :
  batch_wf b →
  match index_chunk title role (b, doc_id) chunk w with
  | (w', Ok (b', doc_id')) =>
      batch_wf b' ∧ doc_id' = doc_id + 1 ∧
      ∃ F, collection w' = foldl add_record (collection w) F ∧
           F ++ rows_of b'
           = rows_of b ++ export_rows [(title, role, chunk)] doc_id
  | (w', Raise _) => collection w' = collection w
  end.
Proof.
  intros Hwf. unfold index_chunk. cbn [export_rows].
  match goal with |- context [insert_batch ?x] => set (b2 := x) end.
  match goal with |- context [rows_of b ++ [?r]] => set (row := r) end.
  destruct (rows_of_snoc b (document row.2) (metadata row.2) row.1 Hwf)
    as [Hrows Hwf2].
  change (mkBatch _ _ _) with b2 in Hrows, Hwf2.
  change (mkEntry _ _ _) with row.2 in Hrows.
  change (row.1, row.2) with row in Hrows.
  destruct (len (docs b2) >=? 128).
  - rewrite bind_run. pose proof (insert_batch_rows b2 w) as Hins.
    destruct (insert_batch b2 w) as [w1 [[]|e]]; [|done].
    cbn [mret M_ret]. split; [done|]. split; [done|]. exists (rows_of b2).
    split; [done|]. by rewrite app_nil_r.
  - cbn [mret M_ret]. split; [done|]. split; [done|]. exists [].
    by rewrite app_nil_l.
Qed.

(** Both loops of [build_index] have the shape of this one: a body that
    turns [x] into the rows [rows_at n x] and moves the counter from [n]
    to [next n x]. *)
Lemma for_each_rows {A} (body : Batch * Z → A → M (Batch * Z))
    (rows_at : Z → A → list (str * Entry)) (next : Z → A → Z)
    (all : Z → list A → list (str * Entry)) (last : Z → list A → Z) :
  (∀ n, all n [] = [] ∧ last n [] = n) →
  (∀ n x xs, all n (x :: xs) = rows_at n x ++ all (next n x) xs ∧
             last n (x :: xs) = last (next n x) xs) →
  (∀ b n x w, batch_wf b →
     ∃ F, collection (body (b, n) x w).1 = foldl add_record (collection w) F ∧
          match (body (b, n) x w).2 with
          | Ok (b', n') =>
              batch_wf b' ∧ n' = next n x ∧
              F ++ rows_of b' = rows_of b ++ rows_at n x
          | Raise _ => F `prefix_of` rows_of b ++ rows_at n x
          end) →
  ∀ xs b n w, batch_wf b →
    ∃ F, collection (for_each xs body (b, n) w).1
         = foldl add_record (collection w) F ∧
         match (for_each xs body (b, n) w).2 with
         | Ok (b', n') =>
             batch_wf b' ∧ n' = last n xs ∧
             F ++ rows_of b' = rows_of b ++ all n xs
         | Raise _ => F `prefix_of` rows_of b ++ all n xs
         end.
Proof.
  intros Hnil Hcons Hbody xs.
  induction xs as [|x xs IH]; intros b n w Hwf.
  - destruct (Hnil n) as [-> ->]. exists []. simpl. by rewrite app_nil_r.
  - destruct (Hcons n x xs) as [-> ->]. cbn [for_each]. rewrite bind_run.
    destruct (Hbody b n x w Hwf) as (F1 & Hc1 & Hr1).
    destruct (body (b, n) x w) as [w1 [[b1 n1]|e]]; simpl in Hc1, Hr1.
    + destruct Hr1 as (Hwf1 & -> & Hr1).
      destruct (IH b1 (next n x) w1 Hwf1) as (F & Hc & Hr).
      exists (F1 ++ F). split; [by rewrite Hc, Hc1, foldl_app|].
      destruct (for_each xs body (b1, next n x) w1).2 as [[b' n']|e].
      * destruct Hr as (Hwf' & -> & Hr). split; [done|]. split; [done|].
        by rewrite <- app_assoc, Hr, !app_assoc, Hr1.
      * rewrite app_assoc, <- Hr1, <- app_assoc. by apply prefix_app.
    + exists F1. simpl. split; [done|]. rewrite app_assoc.
      by apply prefix_app_r.
Qed.

Lemma index_message_rows (b : Batch) (doc_id : Z)
    (msg : value * value * str) (w : World) :
  batch_wf b →
  ∃ F, collection (index_message (b, doc_id) msg w).1
       = foldl add_record (collection w) F ∧
       match (index_message (b, doc_id) msg w).2 with
       | Ok (b', n') =>
           batch_wf b' ∧ n' = doc_id + len (message_chunks [msg]) ∧
           F ++ rows_of b'
           = rows_of b ++ export_rows (message_chunks [msg]) doc_id
       | Raise _ =>
           F `prefix_of`
             rows_of b ++ export_rows (message_chunks [msg]) doc_id
       end.
Proof.
  destruct msg as [[title role] text]. rewrite message_chunks_one.
  unfold index_message.
  generalize (chunk_text text default_max_chars). intros chunks Hwf.
  apply (for_each_rows (index_chunk title role)
           (λ n chunk, export_rows [(title, role, chunk)] n)
           (λ n _, n + 1)
           (λ n chunks, export_rows ((λ c, (title, role, c)) <$> chunks) n)
           (λ n chunks, n + len ((λ c, (title, role, c)) <$> chunks)));
    [| | |done].
  - intros n. split; [done|]. unfold len. simpl. lia.
  - intros n x xs. split; [done|]. unfold len. rewrite !fmap_cons.
    cbn [length]. lia.
  - intros b0 n x w0 Hwf0.
    pose proof (index_chunk_rows title role b0 n x w0 Hwf0) as Hstep.
    destruct (index_chunk title role (b0, n) x w0) as [w1 [[b1 n1]|e]].
    + destruct Hstep as (Hwf1 & -> & F & Hc & Hr). by exists F.
    + exists []. simpl. split; [done|]. apply prefix_nil.
Qed.

Lemma index_all_rows (export : Loader.gen (value * value * str))
    (w : World) :
  ∃ F, collection (index_all export w).1
       = foldl add_record (collection w) F ∧
       match (index_all export w).2 with
       | Ok _ => F = export_rows (message_chunks export.1) 0
       | Raise _ => F `prefix_of` export_rows (message_chunks export.1) 0
       end.
Proof.
  destruct export as [messages ending]. cbn [fst].
  unfold index_all. cbn [fst snd]. rewrite bind_run.
  destruct (for_each_rows index_message
              (λ n msg, export_rows (message_chunks [msg]) n)
              (λ n msg, n + len (message_chunks [msg]))
              (λ n msgs, export_rows (message_chunks msgs) n)
              (λ n msgs, n + len (message_chunks msgs))) with
    (xs := messages) (b := no_batch) (n := 0) (w := w)
    as (F & Hc & Hr).
  - intros n. split; [done|]. unfold len. simpl. lia.
  - intros n x xs. rewrite (message_chunks_cons x xs), export_rows_app.
    split; [done|]. rewrite len_app. lia.
  - intros b n x w0 Hwf. by apply index_message_rows.
  - done.
  - change (rows_of no_batch) with (@nil (str * Entry)) in Hr.
    rewrite app_nil_l in Hr.
    destruct (for_each messages index_message (no_batch, 0) w)
      as [w1 [[b n]|e]]; simpl in Hc, Hr; [|by exists F].
    destruct Hr as (Hwf & _ & Hr). cbn [fst].
    destruct ending as [e|].
    { exists F. simpl. split; [done|]. rewrite <- Hr. by apply prefix_app_r. }
    destruct (truthy (docs b)) eqn:T.
    + pose proof (insert_batch_rows b w1) as Hins.
      destruct (insert_batch b w1) as [w2 [[]|e]].
      * exists (F ++ rows_of b). simpl. split; [|done].
        by rewrite foldl_app, <- Hc, <- Hins.
      * exists F. simpl. split; [congruence|]. rewrite <- Hr.
        by apply prefix_app_r.
    + exists F. cbn [mret M_ret fst snd]. split; [done|].
      assert (rows_of b = []) as Hnil.
      { unfold rows_of. by destruct (docs b). }
      by rewrite Hnil, app_nil_r in Hr.
Qed.

Lemma others_add_export (rs : list (str * Entry)) (c : gmap str Entry) :
  Forall export_row rs → others (foldl add_record c rs) = others c.
Proof.
  intros Hrs. revert c. induction Hrs as [|r rs Hr Hrs IH]; intros c; [done|].
  simpl. rewrite IH. unfold add_record.
  destruct (c !! r.1) eqn:E; [done|]. unfold others, delete_where.
  apply map_filter_insert_not'.
  - simpl. unfold export_row in Hr. by rewrite Hr.
  - intros y Hy. congruence.
Qed.

Lemma others_idemp (c : gmap str Entry) : others (others c) = others c.
Proof.
  unfold others, delete_where. apply map_filter_id.
  intros i x Hx. by apply map_lookup_filter_Some in Hx as [_ Hx].
Qed.

(** The collection a rebuild leaves when it returns. *)
Lemma build_index_rows (export : Loader.gen (value * value * str))
    (w w' : World) :
  build_index export w = (w', Ok tt) →
  collection w'
  = foldl add_record (collection (after_delete w))
      (export_rows (message_chunks export.1) 0).
Proof.
  rewrite build_index_steps. intros Hrun.
  destruct (index_all_rows export (after_delete w)) as (F & Hc & Hr).
  rewrite Hrun in Hc, Hr. simpl in Hc, Hr. by rewrite Hc, Hr.
Qed.

Lemma build_index_others (export : Loader.gen (value * value * str))
    (w : World) :
  others (collection (build_index export w).1) = others (collection w).
Proof.
  rewrite build_index_steps.
  destruct (index_all_rows export (after_delete w)) as (F & Hc & Hr).
  rewrite Hc. rewrite others_add_export.
  - unfold after_delete. destruct (fails (clock w)); [done|].
    apply others_idemp.
  - assert (Hall : Forall export_row
                     (export_rows (message_chunks export.1) 0))
      by apply export_rows_tagged.
    destruct (index_all export (after_delete w)).2; [by subst|].
    destruct Hr as [Q HQ]. rewrite HQ in Hall.
    by apply Forall_app in Hall as [? _].
Qed.

End RebuildRows.

Section RebuildLookup.
Context `{Host}.
Import RagIndex.

Lemma foldl_add_keeps_entry (rs : list (str * Entry)) (c : gmap str Entry)
    (i : str) (e : Entry) :
  c !! i = Some e → foldl add_record c rs !! i = Some e.
Proof.
  revert c. induction rs as [|r rs IH]; intros c Hc; simpl; [done|].
  by apply IH, add_record_keeps.
Qed.

Lemma foldl_add_lookup_none (rs : list (str * Entry)) (c : gmap str Entry)
    (i : str) :
  c !! i = None → Forall (λ r, r.1 ≠ i) rs →
  foldl add_record c rs !! i = None.
Proof.
  intros Hc Hrs. revert c Hc.
  induction Hrs as [|r rs Hr Hrs IH]; intros c Hc; simpl; [done|].
  apply IH. unfold add_record at 1. destruct (c !! r.1); [done|].
  by rewrite lookup_insert_ne.
Qed.

Lemma foldl_add_lookup_new (pre post : list (str * Entry))
    (c : gmap str Entry) (i : str) (e : Entry) :
  c !! i = None → Forall (λ r, r.1 ≠ i) pre →
  foldl add_record c (pre ++ (i, e) :: post) !! i = Some e.
Proof.
  intros Hc Hpre. rewrite foldl_app. cbn [foldl].
  apply foldl_add_keeps_entry.
  pose proof (foldl_add_lookup_none pre c i Hc Hpre) as Hnone.
  unfold add_record at 1. cbn [fst snd]. rewrite Hnone.
  apply lookup_insert_eq.
Qed.

Lemma export_rows_ids (xs : list (value * value * str)) (n : Z)
    (r : str * Entry) :
  r ∈ export_rows xs n → ∃ j, 0 ≤ j < len xs ∧ r.1 = export_id (n + j).
Proof.
  revert n. induction xs as [|[[title role] chunk] xs IH]; intros n Hin;
    [by inversion Hin|].
  cbn [export_rows] in Hin. apply elem_of_cons in Hin as [->|Hin].
  - exists 0. unfold len. cbn [length fst]. split; [lia|].
    by rewrite Z.add_0_r.
  - destruct (IH _ Hin) as (j & Hj & ->). exists (j + 1).
    unfold len in *. cbn [length]. split; [lia|]. f_equal. lia.
Qed.

Lemma export_rows_split (xs : list (value * value * str)) (n : Z) (k : nat)
    (title role : value) (chunk : str) :
  xs !! k = Some (title, role, chunk) →
  ∃ pre post,
    export_rows xs n
    = pre ++ (export_id (n + Z.of_nat k),
              mkEntry chunk
                [(lit "source", JStr export_tag);
                 (lit "conversation_title", title);
                 (lit "role", role)]
                (embed chunk)) :: post ∧
    Forall (λ r, r.1 ≠ export_id (n + Z.of_nat k)) pre.
Proof.
  intros Hk. apply take_drop_middle in Hk as Hsplit.
  rewrite <- Hsplit, export_rows_app. cbn [export_rows].
  eexists _, _. split.
  - f_equal. f_equal. f_equal. f_equal. unfold len. rewrite length_take.
    apply lookup_lt_Some in Hk. lia.
  - apply Forall_forall. intros r Hr.
    apply export_rows_ids in Hr as (j & Hj & ->).
    unfold len in Hj. rewrite length_take in Hj. intros Heq.
    unfold export_id in Heq. apply app_inv_head in Heq.
    apply str_of_int_inj in Heq. lia.
Qed.

Lemma index_all_keeps_all (export : Loader.gen (value * value * str)) :
  respects keeps_all (index_all export).
Proof.
  intros w id e He. destruct (index_all_rows export w) as (F & -> & _).
  by apply foldl_add_keeps_entry.
Qed.

End RebuildLookup.

(** X12: a rebuild that returns, its deletion having succeeded, leaves the
    records outside the export partition and, added to them in order, one
    row per chunk of the messages the loader yielded: the [k]-th chunk
    (from 0) is kept under the id made from the counter [k], tagged
    [chatgpt_export] with the title and role of its message, unless a
    record outside the export partition already holds that id. *)
Theorem build_index_adds_export_rows `{Host}
    (export : Loader.gen (value * value * str)) (w w' : World) :
  RagIndex.build_index export w = (w', Ok tt) →
  fails (clock w) = false →
  collection w'
  = foldl add_record (others (collection w))
      (export_rows (message_chunks export.1) 0) ∧
  (∀ (k : nat) (title role : value) (chunk : str),
     message_chunks export.1 !! k = Some (title, role, chunk) →
     others (collection w) !! export_id (Z.of_nat k) = None →
     collection w' !! export_id (Z.of_nat k)
     = Some (mkEntry chunk
               [(lit "source", JStr RagIndex.export_tag);
                (lit "conversation_title", title);
                (lit "role", role)]
               (embed chunk))).
Proof.
  intros Hrun Hdel. apply build_index_rows in Hrun.
  unfold after_delete in Hrun. rewrite Hdel in Hrun. cbn [collection] in Hrun.
  fold (others (collection w)) in Hrun. split; [done|].
  intros k title role chunk Hk Hfree. rewrite Hrun.
  destruct (export_rows_split (message_chunks export.1) 0 k title role chunk
              Hk) as (pre & post & -> & Hpre).
  rewrite Z.add_0_l in *. by apply foldl_add_lookup_new.
Qed.

(** X13: a rebuild that returns, its deletion having succeeded, replaces
    whatever an earlier rebuild attempt left, whether that attempt was over
    the same export or another, and whether it returned or raised (an
    external call failed, or the loader ended with an exception): the
    result is that of a rebuild started before the earlier attempt. In
    particular a second rebuild over the same export changes nothing. *)
Theorem rebuild_replaces_previous `{Host}
    (earlier export : Loader.gen (value * value * str)) (w w1 w2 : World)
    (r : result unit) :
  RagIndex.build_index earlier w = (w1, r) →
  RagIndex.build_index export w1 = (w2, Ok tt) →
  fails (clock w1) = false →
  collection w2
  = foldl add_record (others (collection w))
      (export_rows (message_chunks export.1) 0) ∧
  (earlier = export → r = Ok tt → fails (clock w) = false →
   collection w2 = collection w1).
Proof.
  intros Hfirst Hsecond Hdel.
  pose proof (build_index_others earlier w) as Hoth.
  rewrite Hfirst in Hoth. cbn [fst] in Hoth.
  apply build_index_rows in Hsecond as Hc2.
  unfold after_delete in Hc2. rewrite Hdel in Hc2. cbn [collection] in Hc2.
  fold (others (collection w1)) in Hc2. rewrite Hoth in Hc2.
  split; [done|]. intros -> -> Hdel1.
  apply build_index_rows in Hfirst. unfold after_delete in Hfirst.
  rewrite Hdel1 in Hfirst. cbn [collection] in Hfirst.
  fold (others (collection w)) in Hfirst. congruence.
Qed.

(** X14: when the deletion of step 1 raises, the run is no rebuild: it
    goes on, but every record of the old export partition stays as it was,
    and a new chunk whose id is already held is dropped. *)
Theorem build_index_stale_when_delete_fails `{Host}
    (export : Loader.gen (value * value * str)) (w : World)
    (id : str) (e : Entry) :
  fails (clock w) = true →
  collection w !! id = Some e →
  collection (RagIndex.build_index export w).1 !! id = Some e.
Proof.
  intros Hdel He. rewrite build_index_steps. unfold after_delete.
  rewrite Hdel. by apply (index_all_keeps_all export (tick w)).
Qed.

(** ** The export loader *)

Section LoaderFacts.
Import Loader.

Lemma gen_for_app {A B} (xs ys : list A) (body : A → gen B) :
  gen_for (xs ++ ys) body
  = match gen_for xs body with
    | (a, Some e) => (a, Some e)
    | (a, None) => let '(b, e) := gen_for ys body in (a ++ b, e)
    end.
Proof.
  induction xs as [|x xs IH]; simpl.
  - by destruct (gen_for ys body).
  - destruct (body x) as [a [e|]]; [done|]. rewrite IH.
    destruct (gen_for xs body) as [a1 [e1|]]; [done|].
    destruct (gen_for ys body) as [b e]. by rewrite app_assoc.
Qed.

Lemma gen_for_elem {A B} (xs : list A) (body : A → gen B) (y : B) :
  y ∈ (gen_for xs body).1 → ∃ x, x ∈ xs ∧ y ∈ (body x).1.
Proof.
  induction xs as [|x xs IH]; simpl; [by inversion 1|].
  destruct (body x) as [a [e|]] eqn:E.
  - intros Hy. exists x. rewrite E. split; [by left|done].
  - destruct (gen_for xs body) as [b e]. simpl in *.
    intros [Hy|Hy]%elem_of_app.
    + exists x. rewrite E. split; [by left|done].
    + destruct (IH Hy) as (x' & Hx' & Hy'). exists x'. split; [by right|done].
Qed.

Lemma node_messages_text (title node : value) (m : value * value * str) :
  m ∈ (node_messages title node).1 → m.2 ≠ [] ∧ strip m.2 = m.2.
Proof.
  unfold node_messages. destruct node as [| | | | |nd]; try by inversion 1.
  destruct (negb _); [by inversion 1|].
  destruct (dict_get nd (lit "message") JNull) as [| | | | |md];
    try by inversion 1.
  destruct (dict_get md (lit "author") _) as [| | | | |ad];
    try by inversion 1.
  destruct (dict_get md (lit "content") _) as [| | | | |cd];
    try by inversion 1.
  cbn zeta. destruct (string_parts _) as [ps|]; [|by inversion 1].
  destruct (truthy (strip (join [NL; NL] ps))) eqn:T; [|by inversion 1].
  intros ->%list_elem_of_singleton. cbn [snd]. split.
  - by destruct (strip (join [NL; NL] ps)).
  - apply strip_idemp.
Qed.

Lemma file_messages_text (file : str * option value)
    (m : value * value * str) :
  m ∈ (file_messages file).1 → m.2 ≠ [] ∧ strip m.2 = m.2.
Proof.
  assert (Hmap : ∀ title mapping, m ∈ (mapping_messages title mapping).1 →
                 m.2 ≠ [] ∧ strip m.2 = m.2).
  { intros title mapping. unfold mapping_messages.
    destruct mapping; try by inversion 1.
    intros (node & _ & Hm)%gen_for_elem. by eapply node_messages_text. }
  destruct file as [stem [data|]]; [|by inversion 1]. simpl.
  destruct data as [| | | |convs|d]; try by inversion 1.
  - intros (conv & _ & Hm)%gen_for_elem. unfold conv_messages in Hm.
    destruct conv; try by inversion Hm. by eapply Hmap.
  - destruct (dict_has d (lit "mapping")); [apply Hmap|by inversion 1].
Qed.

Lemma dict_get_has (d : dict) (key : str) (a b : value) :
  dict_has d key = true → dict_get d key a = dict_get d key b.
Proof.
  unfold dict_has. rewrite bool_decide_eq_true.
  induction d as [|[k v] d IH]; simpl; [by inversion 1|].
  destruct (decide (k = key)); [done|].
  intros [?|Hin]%elem_of_cons; [done|]. by apply IH.
Qed.

Lemma dict_get_missing (d : dict) (key : str) (a : value) :
  dict_has d key = false → dict_get d key a = a.
Proof.
  unfold dict_has. rewrite bool_decide_eq_false.
  induction d as [|[k v] d IH]; simpl; [done|].
  intros Hnot. destruct (decide (k = key)) as [->|].
  - exfalso. apply Hnot. by left.
  - apply IH. intros Hin. apply Hnot. by right.
Qed.


Lemma non_empty_stripped_not_blank (s : str) :
  s ≠ [] → strip s = s → ¬ Forall (λ c, isspace c = true) s.
Proof.
  intros Hne Hs Hall. apply strip_nil_iff in Hall. congruence.
Qed.

End LoaderFacts.

(** X15: the loader never yields an empty text, and every text it yields is
    stripped: it has no white space at either end, so it is not blank and
    the chunker makes at least one chunk of it. *)
Theorem loader_texts_stripped (export_dir : Loader.ExportDir)
    (title role : value) (text : str) :
  (title, role, text) ∈ (Loader.iter_chatgpt_messages export_dir).1 →
  text ≠ [] ∧ strip text = text ∧
  (∀ max_chars : Z, bool_decide (chunk_text text max_chars = []) = false).
Proof.
  unfold Loader.iter_chatgpt_messages.
  intros (file & _ & Hm)%gen_for_elem.
  apply file_messages_text in Hm as [Hne Hs]. cbn [snd] in *.
  split; [done|]. split; [done|]. intros max_chars.
  apply bool_decide_eq_false. intros Hnil.
  apply (non_empty_stripped_not_blank text Hne Hs).
  destruct (chunk_text_groups text max_chars) as (gs & Hgs & Hcat & Hch).
  rewrite Hnil in Hch. symmetry in Hch. apply fmap_nil_inv in Hch. subst gs.
  unfold source_lines in Hcat.
  rewrite <- replace_crlf_space, <- strip_nil_iff.
  change (strip (replace_crlf text)) with (normalize text).
  destruct (truthy (normalize text)) eqn:T.
  - symmetry in Hcat. by apply split_nl_nonempty in Hcat.
  - by destruct (normalize text).
Qed.


(** X17: the two shapes of an export agree: a file that holds a list with
    one conversation object yields, and raises, exactly what a file that
    holds the object itself does. *)
Theorem loader_shapes_agree (stem : str) (d : dict) :
  Loader.file_messages (stem, Some (JArr [JObj d]))
  = Loader.file_messages (stem, Some (JObj d)).
Proof.
  simpl. destruct (Loader.dict_has d (lit "mapping")) eqn:Hhas.
  - rewrite (dict_get_has d (lit "mapping") (JObj []) JNull Hhas).
    destruct (Loader.mapping_messages _ _) as [ys [e|]]; [done|].
    by rewrite app_nil_r.
  - by rewrite (dict_get_missing d (lit "mapping") (JObj []) Hhas).
Qed.

Section LoaderStops.
Import Loader.

(** A list file with something other than an object in it: the
    conversations before it are read, then the loader raises. *)
Lemma file_messages_malformed (stem : str) (convs1 convs2 : list value)
    (conv : value) :
  is_object conv = false →
  file_messages (stem, Some (JArr (convs1 ++ conv :: convs2)))
  = ((file_messages (stem, Some (JArr convs1))).1,
     Some (default AttributeError
             (file_messages (stem, Some (JArr convs1))).2)).
Proof.
  intros Hconv. cbn [file_messages]. rewrite gen_for_app.
  destruct (gen_for convs1 (conv_messages stem)) as [c [e|]]; [done|].
  cbn [gen_for fst snd default].
  assert (Hbad : conv_messages stem conv = ([], Some AttributeError))
    by (by destruct conv).
  rewrite Hbad. by rewrite app_nil_r.
Qed.

Lemma gen_for_snoc {A B} (xs : list A) (x : A) (body : A → gen B) :
  gen_for (xs ++ [x]) body
  = match gen_for xs body with
    | (a, Some e) => (a, Some e)
    | (a, None) => (a ++ (body x).1, (body x).2)
    end.
Proof.
  rewrite gen_for_app. destruct (gen_for xs body) as [a [e|]]; [done|].
  cbn [gen_for]. destruct (body x) as [ys [e|]]; [done|].
  by rewrite app_nil_r.
Qed.

End LoaderStops.

(** X18: unlike a file that cannot be loaded, a list file that holds
    something other than an object where a conversation should be ends
    the loader with an exception. What the loader yields is exactly what
    it yields from the files before and from the conversations of the
    file before the malformed one; the conversations after it in the file
    and the files after it are never read. The exception is
    [AttributeError], unless the part before already ends with an
    exception of its own. In particular, when the files before and the
    conversations before are read without an exception, their messages,
    in order, are all yielded before the loader raises. *)
Theorem loader_stops_at_malformed_conversation
    (before after : list (str * option value)) (stem : str)
    (convs1 convs2 : list value) (conv : value) :
  is_object conv = false →
  let file := (stem, Some (JArr (convs1 ++ conv :: convs2))) in
  let result :=
    Loader.iter_chatgpt_messages
      (Loader.mkExportDir None (before ++ file :: after)) in
  let read :=
    Loader.iter_chatgpt_messages
      (Loader.mkExportDir None (before ++ [(stem, Some (JArr convs1))])) in
  result = (read.1, Some (default AttributeError read.2)) ∧
  (∀ ys zs : list (value * value * str),
     Loader.iter_chatgpt_messages (Loader.mkExportDir None before)
     = (ys, None) →
     Loader.iter_chatgpt_messages
       (Loader.mkExportDir None [(stem, Some (JArr convs1))])
     = (zs, None) →
     result = (ys ++ zs, Some AttributeError)).
Proof.
  intros Hconv file result read.
  assert (Hres : result = (read.1, Some (default AttributeError read.2))).
  { unfold result, read, file, Loader.iter_chatgpt_messages.
    cbn [Loader.conversations_file Loader.json_files].
    rewrite gen_for_app, gen_for_snoc. cbn [Loader.gen_for].
    rewrite (file_messages_malformed stem convs1 convs2 conv Hconv).
    destruct (Loader.gen_for before Loader.file_messages) as [a [e|]];
      [done|].
    by destruct (Loader.file_messages (stem, Some (JArr convs1)))
      as [c [e|]]. }
  split; [exact Hres|]. intros ys zs Hys Hzs. rewrite Hres.
  unfold read, Loader.iter_chatgpt_messages in *.
  cbn [Loader.conversations_file Loader.json_files] in *.
  rewrite gen_for_snoc, Hys.
  change [(stem, Some (JArr convs1))]
    with ([] ++ [(stem, Some (JArr convs1))]) in Hzs.
  rewrite gen_for_snoc in Hzs. cbn [Loader.gen_for app] in Hzs.
  destruct (Loader.file_messages (stem, Some (JArr convs1))) as [c e].
  cbn [fst snd] in *. by injection Hzs as -> ->.
Qed.

(** ** The callers *)

Section CallerFacts.
Context `{Host}.
Import Callers.

Lemma pack_negative (max_chars : Z) (pairs : list (str * dict)) :
  max_chars < 0 → RagCli.pack max_chars pairs [] 0 = [].
Proof.
  intros Hneg. destruct pairs as [|[doc meta] pairs]; [done|].
  cbn [RagCli.pack]. cbn zeta.
  destruct (Z.gtb_spec (0 + len (RagCli.format_piece doc meta)) max_chars);
    [done|]. unfold len in *. lia.
Qed.

Lemma cfg_big_pack (cfg : RagCli.RagCfg) (pairs : list (str * dict)) :
  ∃ n : nat,
    RagCli.pack (default 8000 (RagCli.max_context_chars cfg)) pairs [] 0
    = take n
        (RagCli.pack
           (default 8000 (RagCli.max_context_chars (cfg_big cfg)))
           pairs [] 0).
Proof.
  unfold cfg_big. cbn [RagCli.max_context_chars].
  change (default 8000 (Some ?x)) with x.
  set (B := default 8000 (RagCli.max_context_chars cfg)).
  destruct (Z.lt_ge_cases B 0) as [Hneg|Hpos].
  - exists 0%nat. by rewrite (pack_negative B), take_0.
  - apply pack_mono. lia.
Qed.

Lemma split_roles_spec (messages : list ChatMessage)
    (user_parts system_parts : list str) :
  split_roles messages user_parts system_parts
  = (user_parts
     ++ (content <$> filter (λ m, role m = lit "user") messages),
     system_parts
     ++ (content <$>
           filter (λ m, role m ≠ lit "user" ∧ role m = lit "system")
             messages)).
Proof.
  revert user_parts system_parts.
  induction messages as [|m rest IH]; intros us ss; simpl.
  - by rewrite !app_nil_r.
  - rewrite !filter_cons. case_bool_decide as Hu.
    + rewrite IH. rewrite decide_True by done.
      rewrite decide_False by tauto. by rewrite fmap_cons, <- app_assoc.
    + rewrite decide_False by done. case_bool_decide as Hs.
      * rewrite IH. rewrite decide_True by done.
        by rewrite fmap_cons, <- app_assoc.
      * rewrite IH. by rewrite decide_False by tauto.
Qed.

Lemma join_blank (ps : list str) :
  Forall (λ c, isspace c = true) (join [NL; NL] ps)
  ↔ Forall (Forall (λ c, isspace c = true)) ps.
Proof.
  induction ps as [|p ps IH]; [by split; constructor|].
  destruct ps as [|q ps].
  - simpl. split; [by constructor|by inversion 1].
  - rewrite join_cons by done. rewrite !Forall_app, IH. split.
    + intros (Hp & _ & Hps). by constructor.
    + intros Hall. inversion Hall as [|? ? Hp Hps]; subst.
      split; [done|]. split; [by repeat constructor|done].
Qed.

End CallerFacts.

(** X19: the reports that double the budget ([cfg_big]) never lose a
    snippet: under any configuration the pieces kept with the configured
    budget are a prefix of those kept with the doubled one, and when the
    configured budget gives some context the doubled one does too. *)
Theorem cfg_big_keeps_snippets `{Host} (c : gmap str Entry) (q : str)
    (cfg : RagCli.RagCfg) (pairs : list (str * dict)) :
  (∃ n : nat,
     RagCli.pack (default 8000 (RagCli.max_context_chars cfg)) pairs [] 0
     = take n
         (RagCli.pack
            (default 8000 (RagCli.max_context_chars (Callers.cfg_big cfg)))
            pairs [] 0)) ∧
  (truthy (RagCli.retrieve_context c q cfg) = true →
   truthy (RagCli.retrieve_context c q (Callers.cfg_big cfg)) = true).
Proof.
  split; [apply cfg_big_pack|].
  unfold RagCli.retrieve_context. cbn [Callers.cfg_big RagCli.top_k].
  destruct (query c q (default 8 (RagCli.top_k cfg))) as [docs metas].
  unfold RagCli.assemble. cbn zeta.
  destruct (cfg_big_pack cfg (zip docs metas)) as [n ->].
  destruct (RagCli.pack _ (zip docs metas) [] 0) as [|p ps];
    [by rewrite take_nil|].
  intros _. cbn [truthy negb]. vm_compute. reflexivity.
Qed.

Section LoggedTurns.
Context `{Host}.

(** The records the three writers of the live log build are what the loop
    body of the ingestion expects. *)
Lemma log_record_row (timestamp source model_name : str) (used_rag : bool)
    (user_prompt sent_prompt rag_context assistant_reply : str) (ln : Z) :
  let rec := Callers.log_record timestamp source model_name used_rag
               user_prompt sent_prompt rag_context assistant_reply in
  let text := strip (Ingest.compose (JStr timestamp) (JStr model_name)
                       used_rag (strip user_prompt)
                       (strip assistant_reply)) in
  bad_record rec = false ∧
  turn_row (ln, rec)
  = if negb (truthy (strip user_prompt))
       && negb (truthy (strip assistant_reply))
    then None
    else Some (live_id ln,
               mkEntry text
                 [(lit "source", JStr Ingest.live_tag);
                  (lit "timestamp", JStr timestamp);
                  (lit "model", JStr model_name);
                  (lit "used_rag", JBool used_rag)]
                 (embed text)).
Proof.
  cbn zeta. split; [reflexivity|].
  unfold turn_row, Callers.log_record. cbn [fst snd].
  change (dict_get _ (lit "user_prompt") (JStr [])) with (JStr user_prompt).
  change (dict_get _ (lit "assistant_reply") (JStr []))
    with (JStr assistant_reply).
  cbn iota. destruct (_ && _); [done|].
  change (dict_get _ (lit "timestamp") (JStr [])) with (JStr timestamp).
  change (dict_get _ (lit "model") (JStr [])) with (JStr model_name).
  change (dict_get _ (lit "used_rag") (JBool false)) with (JBool used_rag).
  by destruct used_rag.
Qed.

(** The generator yields the line numbers in increasing order, each
    once. *)
Lemma scan_from (i : Z) (lines : list str) (last_line : Z) :
  Forall (λ p, i ≤ p.1) (Ingest.scan i lines last_line).
Proof.
  revert i. induction lines as [|line rest IH]; intros i; [constructor|].
  assert (Hrest : Forall (λ p, i ≤ p.1)
                    (Ingest.scan (i + 1) rest last_line)).
  { eapply Forall_impl; [apply IH|]. intros p Hp. simpl in Hp. lia. }
  cbn [Ingest.scan]. destruct (i <=? last_line); [done|].
  destruct (negb (truthy (strip line))); [done|].
  destruct (json_loads (strip line)); [|done].
  constructor; [simpl; lia|done].
Qed.

Lemma scan_NoDup (i : Z) (lines : list str) (last_line : Z) :
  NoDup (Ingest.scan i lines last_line).*1.
Proof.
  revert i. induction lines as [|line rest IH]; intros i; [constructor|].
  cbn [Ingest.scan]. destruct (i <=? last_line); [apply IH|].
  destruct (negb (truthy (strip line))); [apply IH|].
  destruct (json_loads (strip line)); [|apply IH].
  rewrite fmap_cons. constructor; [|apply IH].
  intros Hin. apply list_elem_of_fmap in Hin as (p & Hp & Hin).
  pose proof (scan_from (i + 1) rest last_line) as Hfrom.
  rewrite Forall_forall in Hfrom. specialize (Hfrom p Hin).
  simpl in Hp, Hfrom. lia.
Qed.

Lemma turn_row_id (item : Z * value) (r : str * Entry) :
  turn_row item = Some r → r.1 = live_id item.1.
Proof.
  unfold turn_row. destruct item.2 as [| | | | |d]; try done.
  destruct (dict_get d (lit "user_prompt") (JStr [])); try done.
  destruct (dict_get d (lit "assistant_reply") (JStr [])); try done.
  destruct (_ && _); [done|]. by intros [= <-].
Qed.

Lemma live_id_inj (n m : Z) : live_id n = live_id m → n = m.
Proof.
  unfold live_id. intros Hnm. apply app_inv_head in Hnm.
  by apply str_of_int_inj.
Qed.

(** The row of a yielded pair is kept under the id of its line, when the
    collection does not hold that id yet. *)
Lemma live_rows_lookup (log : option (list str)) (last_line : Z)
    (c : gmap str Entry) (item : Z * value) (r : str * Entry) :
  item ∈ Ingest.iter_new_records log last_line →
  turn_row item = Some r →
  c !! live_id item.1 = None →
  foldl add_record c (live_rows log last_line) !! live_id item.1
  = Some r.2.
Proof.
  intros Hin Hrow Hfree. unfold live_rows.
  assert (Hnd : NoDup (Ingest.iter_new_records log last_line).*1).
  { destruct log; [apply scan_NoDup|constructor]. }
  apply list_elem_of_split in Hin as (pre & post & Hsplit).
  rewrite Hsplit in *. rewrite omap_app.
  change (omap turn_row (item :: post))
    with (match turn_row item with
          | Some y => y :: omap turn_row post
          | None => omap turn_row post
          end).
  rewrite Hrow. pose proof (turn_row_id item r Hrow) as Hid.
  destruct r as [i e]. cbn [fst snd] in *. subst i.
  apply foldl_add_lookup_new; [done|].
  apply Forall_forall. intros r' Hr'.
  apply list_elem_of_omap in Hr' as (p & Hp & Hrow').
  apply turn_row_id in Hrow'. rewrite Hrow'. intros Heq.
  apply live_id_inj in Heq. rewrite fmap_app, fmap_cons in Hnd.
  apply NoDup_app in Hnd as (_ & Hdis & _).
  apply (Hdis p.1); [by apply list_elem_of_fmap_2|].
  rewrite Heq. apply list_elem_of_here.
Qed.

End LoggedTurns.

(** X20: what one of the three writers of the live log has recorded, the
    ingestion finds again. When a run returns, the record the writer built
    that the run met on line [ln] is kept under the id of that line, unless
    prompt and reply are both blank or the id was held before: its document
    is made from the time stamp, the model, the flag and the stripped
    prompt and reply. The [source] of the record, the prompt actually
    sent and the retrieved context are not ingested. *)
Theorem logged_turn_ingested `{Host} (log : option (list str))
    (w w' : World) (ln : Z) (timestamp source model_name : str)
    (used_rag : bool)
    (user_prompt sent_prompt rag_context assistant_reply : str) :
  let rec := Callers.log_record timestamp source model_name used_rag
               user_prompt sent_prompt rag_context assistant_reply in
  let text := strip (Ingest.compose (JStr timestamp) (JStr model_name)
                       used_rag (strip user_prompt)
                       (strip assistant_reply)) in
  Ingest.main log w = (w', Ok tt) →
  (ln, rec) ∈ Ingest.iter_new_records log (default 0 (state_file w)) →
  collection w !! live_id ln = None →
  truthy (strip user_prompt) || truthy (strip assistant_reply) = true →
  collection w' !! live_id ln
  = Some (mkEntry text
            [(lit "source", JStr Ingest.live_tag);
             (lit "timestamp", JStr timestamp);
             (lit "model", JStr model_name);
             (lit "used_rag", JBool used_rag)]
            (embed text)).
Proof.
  cbn zeta. intros Hrun Hin Hfree Hsome.
  apply ingest_adds_live_rows_aux in Hrun. rewrite Hrun.
  destruct (log_record_row timestamp source model_name used_rag user_prompt
              sent_prompt rag_context assistant_reply ln) as [_ Hrow].
  cbn zeta in Hrow.
  assert (Hcond : negb (truthy (strip user_prompt))
                  && negb (truthy (strip assistant_reply)) = false).
  { destruct (truthy (strip user_prompt)),
      (truthy (strip assistant_reply)); done. }
  rewrite Hcond in Hrow.
  by apply (live_rows_lookup log _ _ _ _ Hin Hrow).
Qed.

(** X21: [run_rag_completion] refuses a request with status 400 exactly
    when every message of role [user] is blank (or there is none); what
    messages of other roles hold does not matter. *)
Theorem completion_refused_iff `{Host} (c : gmap str Entry)
    (cfg : RagCli.RagCfg) (messages : list Callers.ChatMessage) :
  Callers.prepare_completion c cfg messages = Callers.Refused 400
  ↔ Forall (λ m, Callers.role m = lit "user" →
                 Forall (λ ch, isspace ch = true) (Callers.content m))
      messages.
Proof.
  unfold Callers.prepare_completion. rewrite split_roles_spec, !app_nil_l.
  set (users := Callers.content <$> filter _ messages).
  assert (Hblank : strip (join [NL; NL] users) = [] ↔
    Forall (λ m, Callers.role m = lit "user" →
                 Forall (λ ch, isspace ch = true) (Callers.content m))
      messages).
  { rewrite strip_nil_iff, join_blank. unfold users.
    rewrite Forall_fmap, !Forall_forall. split.
    - intros Hall m Hm Hrole. apply (Hall m). by apply list_elem_of_filter.
    - intros Hall m [Hrole Hm]%list_elem_of_filter. by apply Hall. }
  rewrite <- Hblank. destruct (strip (join [NL; NL] users)) as [|ch s].
  - by cbn [truthy negb].
  - cbn [truthy negb]. split; [|done].
    by destruct (truthy (RagCli.retrieve_context _ _ _)).
Qed.

(** X22: messages whose role is neither [user] nor [system] (the replies
    of the assistant in a running conversation, tool messages) never reach
    the prompts: the request is served as if they were not there. *)
Theorem completion_ignores_other_roles `{Host} (c : gmap str Entry)
    (cfg : RagCli.RagCfg) (messages : list Callers.ChatMessage) :
  Callers.prepare_completion c cfg messages
  = Callers.prepare_completion c cfg
      (filter (λ m, Callers.role m = lit "user"
                    ∨ Callers.role m = lit "system") messages).
Proof.
  unfold Callers.prepare_completion. rewrite !split_roles_spec.
  rewrite !list_filter_filter.
  assert (Hu : ∀ l : list Callers.ChatMessage,
    filter (λ m, Callers.role m = lit "user"
                 ∧ (Callers.role m = lit "user"
                    ∨ Callers.role m = lit "system")) l
    = filter (λ m, Callers.role m = lit "user") l).
  { intros l. apply list_filter_iff. intros m. tauto. }
  assert (Hs : ∀ l : list Callers.ChatMessage,
    filter (λ m, (Callers.role m ≠ lit "user"
                  ∧ Callers.role m = lit "system")
                 ∧ (Callers.role m = lit "user"
                    ∨ Callers.role m = lit "system")) l
    = filter (λ m, Callers.role m ≠ lit "user"
                   ∧ Callers.role m = lit "system") l).
  { intros l. apply list_filter_iff. intros m. tauto. }
  by rewrite Hu, Hs.
Qed.

(** ** The further statements at sample inputs *)

Section MoreWitnesses.
Import Samples.

Lemma ingest_append_only_witness :
  collection (Ingest.main (H0 := host never ([], [])) (Some log8) mixed).1
    !! lit "live-cli-1"
  = Some live_entry.
Proof.
  apply (proj1 (ingest_append_only (H0 := host never ([], []))
                  (Some log8) mixed (lit "live-cli-1") live_entry)).
  vm_compute. reflexivity.
Defined.

Lemma ingest_cursor_monotone_witness :
  state_file (Ingest.main (H0 := host (only 1) ([], [])) (Some log8) at5).1
  = Some 5.
Proof.
  apply (proj2 (ingest_cursor_monotone (H0 := host (only 1) ([], []))
                  (Some log8) at5) ExternalError).
  vm_compute. reflexivity.
Defined.

Lemma ingest_poison_line_witness :
  ∃ e : exn,
    (Ingest.main (H0 := host_poison) (Some poison_log) fresh).2 = Raise e ∧
    state_file (Ingest.main (H0 := host_poison) (Some poison_log) fresh).1
    = None.
Proof.
  apply (ingest_poison_line (H0 := host_poison) (Some poison_log) fresh
           (2, JInt 42)).
  - vm_compute. repeat constructor.
  - reflexivity.
Defined.

Lemma ingest_adds_live_rows_witness :
  collection (Ingest.main (H0 := host never ([], [])) (Some log8) at5).1
  = foldl add_record ∅ (live_rows (H0 := host never ([], [])) (Some log8) 5).
Proof.
  apply (ingest_adds_live_rows (H0 := host never ([], [])) (Some log8) at5).
  vm_compute. reflexivity.
Defined.

Lemma ingest_retry_safe_witness :
  let w1 := (Ingest.main (H0 := host (only 1) ([], [])) (Some log8) at5).1 in
  let w2 := (Ingest.main (H0 := host (only 1) ([], [])) (Some log8) w1).1 in
  let w3 :=
    (Ingest.main (H0 := host (only 1) ([], [])) (Some log8) later5).1 in
  collection w2 = collection w3 ∧ state_file w2 = state_file w3.
Proof.
  intros w1 w2 w3.
  apply (ingest_retry_safe (H0 := host (only 1) ([], [])) (Some log8)
           at5 w1 w2 later5 w3 ExternalError);
    vm_compute; reflexivity.
Defined.

Lemma build_index_adds_export_rows_witness :
  collection
    (RagIndex.build_index (H0 := host never ([], []))
       (messages, None) mixed).1
  = foldl add_record (others (collection mixed))
      (export_rows (message_chunks messages) 0).
Proof.
  apply (build_index_adds_export_rows (H0 := host never ([], []))
           (messages, None) mixed).
  - vm_compute. reflexivity.
  - reflexivity.
Defined.

Lemma rebuild_replaces_previous_witness :
  let w1 :=
    (RagIndex.build_index (H0 := host never ([], []))
       (messages, None) mixed).1 in
  let w2 :=
    (RagIndex.build_index (H0 := host never ([], []))
       (messages, None) w1).1 in
  collection w2 = collection w1.
Proof.
  intros w1 w2.
  apply (proj2 (rebuild_replaces_previous (H0 := host never ([], []))
                  (messages, None) (messages, None) mixed w1 w2 (Ok tt)
                  ltac:(vm_compute; reflexivity)
                  ltac:(vm_compute; reflexivity) eq_refl));
    reflexivity.
Defined.

Lemma build_index_stale_when_delete_fails_witness :
  collection
    (RagIndex.build_index (H0 := host (only 0) ([], []))
       (messages, None) mixed).1
    !! lit "chatgpt-0"
  = Some export_entry.
Proof.
  apply (build_index_stale_when_delete_fails (H0 := host (only 0) ([], []))
           (messages, None) mixed (lit "chatgpt-0") export_entry).
  - reflexivity.
  - vm_compute. reflexivity.
Defined.

Lemma loader_texts_stripped_witness :
  let text := lit "hello " ++ [NL; NL] ++ lit "there" in
  text ≠ [] ∧ strip text = text ∧
  (∀ max_chars : Z, bool_decide (chunk_text text max_chars = []) = false).
Proof.
  apply (loader_texts_stripped export_dir (JStr (lit "Trip"))
           (JStr (lit "user"))).
  vm_compute. repeat constructor.
Defined.


Lemma loader_stops_at_malformed_conversation_witness :
  Loader.iter_chatgpt_messages broken_dir
  = ([(JStr (lit "Trip"), JStr (lit "user"),
       lit "hello " ++ [NL; NL] ++ lit "there");
      (JStr (lit "Garden"), JStr (lit "assistant"), lit "water")],
     Some AttributeError).
Proof.
  apply (proj2 (loader_stops_at_malformed_conversation [file_a] [file_b]
                  (lit "c")
                  [conversation "Garden"
                     [(lit "n1", node "assistant" [JStr (lit "water")])]]
                  [conversation "Books"
                     [(lit "n1", node "user" [JStr (lit "read")])]]
                  (JInt 1) eq_refl)
           [(JStr (lit "Trip"), JStr (lit "user"),
             lit "hello " ++ [NL; NL] ++ lit "there")]
           [(JStr (lit "Garden"), JStr (lit "assistant"), lit "water")]).
  - vm_compute. reflexivity.
  - vm_compute. reflexivity.
Defined.

Lemma cfg_big_keeps_snippets_witness :
  truthy (RagCli.retrieve_context (H0 := host never results3) ∅ (lit "trip")
            (Callers.cfg_big cfg50)) = true.
Proof.
  apply (proj2 (cfg_big_keeps_snippets (H0 := host never results3)
                  ∅ (lit "trip") cfg50 [])).
  vm_compute. reflexivity.
Defined.

End MoreWitnesses.


Section LoggedWitness.
Import Samples.

Lemma logged_turn_ingested_witness :
  let text :=
    lit "[2024-01-01T00:00:00+00:00] (cli, model=local, used_rag=True)"
    ++ [NL] ++ lit "User:" ++ [NL] ++ lit "hi" ++ [NL; NL]
    ++ lit "Assistant:" ++ [NL] ++ lit "hello" in
  collection (Ingest.main (H0 := host_logged) (Some logged_log) fresh).1
    !! lit "live-cli-1"
  = Some (@mkEntry embedder text
            [(lit "source", JStr Ingest.live_tag);
             (lit "timestamp", JStr (lit "2024-01-01T00:00:00+00:00"));
             (lit "model", JStr (lit "local"));
             (lit "used_rag", JBool true)]
            (len text)).
Proof.
  apply (logged_turn_ingested (H0 := host_logged) (Some logged_log) fresh
           (Ingest.main (H0 := host_logged) (Some logged_log) fresh).1 1
           (lit "2024-01-01T00:00:00+00:00") (lit "web") (lit "local") true
           (lit " hi ") (lit "wrapped hi") (lit "context") (lit "hello")).
  - vm_compute. reflexivity.
  - vm_compute. repeat constructor.
  - reflexivity.
  - reflexivity.
Defined.

End LoggedWitness.


Section PreparedFacts.
Context `{Host}.



End PreparedFacts.


Section PreparedWitness.
Import Samples.


End PreparedWitness.

(** ** A rebuild the loader cuts short *)

Section CutShort.
Context `{Host}.
Import RagIndex.

Lemma rows_length (ds : list str) (es : list Vec) (ms : list dict)
    (is_ : list str) :
  length ds = length es → length ds = length ms → length ds = length is_ →
  length (rows ds es ms is_) = length ds.
Proof.
  revert es ms is_.
  induction ds as [|d ds IH]; intros [|e es] [|m ms] [|i is_];
    simpl; try done.
  intros [= He] [= Hm] [= Hi]. by rewrite IH.
Qed.

Lemma rows_of_length (b : Batch) :
  batch_wf b → length (rows_of b) = length (docs b).
Proof.
  intros [Hm Hi]. unfold rows_of.
  apply rows_length; [by rewrite length_fmap|done..].
Qed.

Lemma export_rows_length (xs : list (value * value * str)) (n : Z) :
  length (export_rows xs n) = length xs.
Proof.
  revert n. induction xs as [|[[title role] chunk] xs IH]; intros n; [done|].
  cbn [export_rows length]. by rewrite IH.
Qed.

(** The number of chunks waiting in the batch, through a loop whose body
    takes in [cnt x] chunks and flushes at 128. *)
Lemma for_each_pending {A} (body : Batch * Z → A → M (Batch * Z))
    (total : list A → nat) (cnt : A → nat) :
  total [] = 0%nat →
  (∀ x xs, total (x :: xs) = (cnt x + total xs)%nat) →
  (∀ b n x w, (length (docs b) < 128)%nat →
     match (body (b, n) x w).2 with
     | Ok st => length (docs st.1) = ((length (docs b) + cnt x) mod 128)%nat
     | Raise _ => True
     end) →
  ∀ xs b n w, (length (docs b) < 128)%nat →
    match (for_each xs body (b, n) w).2 with
    | Ok st => length (docs st.1) = ((length (docs b) + total xs) mod 128)%nat
    | Raise _ => True
    end.
Proof.
  intros Hnil Hcons Hbody xs.
  induction xs as [|x xs IH]; intros b n w Hb.
  - rewrite Hnil. cbn [for_each mret M_ret fst snd].
    rewrite Nat.add_0_r. symmetry. by apply Nat.mod_small.
  - rewrite Hcons. cbn [for_each]. rewrite bind_run.
    specialize (Hbody b n x w Hb).
    destruct (body (b, n) x w) as [w1 [[b1 n1]|e]]; [|done].
    cbn [fst snd] in Hbody.
    assert (Hb1 : (length (docs b1) < 128)%nat).
    { rewrite Hbody. apply Nat.mod_upper_bound. lia. }
    specialize (IH b1 n1 w1 Hb1).
    destruct (for_each xs body (b1, n1) w1) as [w2 [[b2 n2]|e]]; [|done].
    cbn [fst snd] in *. rewrite IH, Hbody.
    rewrite Nat.Div0.add_mod_idemp_l. f_equal. lia.
Qed.

Lemma index_chunk_pending (title role : value) (b : Batch) (n : Z)
    (chunk : str) (w : World) :
  (length (docs b) < 128)%nat →
  match (index_chunk title role (b, n) chunk w).2 with
  | Ok st => length (docs st.1) = ((length (docs b) + 1) mod 128)%nat
  | Raise _ => True
  end.
Proof.
  intros Hb. unfold index_chunk.
  match goal with |- context [insert_batch ?x] => set (b2 := x) end.
  assert (Hb2 : length (docs b2) = (length (docs b) + 1)%nat).
  { unfold b2. cbn [docs]. rewrite length_app. simpl. lia. }
  destruct (Z.geb_spec (len (docs b2)) 128) as [Hge|Hlt].
  - rewrite bind_run. destruct (insert_batch b2 w) as [w1 [[]|e]]; [|done].
    cbn [mret M_ret fst snd docs no_batch].
    unfold len in Hge.
    replace (length (docs b) + 1)%nat with 128%nat by lia. reflexivity.
  - cbn [mret M_ret fst snd]. rewrite Hb2. symmetry.
    apply Nat.mod_small. unfold len in Hlt. lia.
Qed.

Lemma index_loop_pending (messages : list (value * value * str))
    (w : World) :
  match (for_each messages index_message (no_batch, 0) w).2 with
  | Ok st =>
      length (docs st.1)
      = (length (message_chunks messages) mod 128)%nat
  | Raise _ => True
  end.
Proof.
  apply (for_each_pending index_message
           (λ msgs, length (message_chunks msgs))
           (λ msg, length (message_chunks [msg]))); [done| | |simpl; lia].
  - intros x xs. by rewrite (message_chunks_cons x xs), length_app.
  - intros b n [[title role] text] w0 Hb. rewrite message_chunks_one.
    rewrite length_fmap. unfold index_message.
    apply (for_each_pending (index_chunk title role)
             (λ chunks, length chunks) (λ _, 1%nat)); [done|done| |done].
    intros b0 n0 chunk w1 Hb0. by apply index_chunk_pending.
Qed.

Lemma index_loop_rows (messages : list (value * value * str)) (w : World) :
  ∃ F, collection (for_each messages index_message (no_batch, 0) w).1
       = foldl add_record (collection w) F ∧
       match (for_each messages index_message (no_batch, 0) w).2 with
       | Ok st =>
           batch_wf st.1 ∧
           F ++ rows_of st.1 = export_rows (message_chunks messages) 0
       | Raise _ => True
       end.
Proof.
  destruct (for_each_rows index_message
              (λ n msg, export_rows (message_chunks [msg]) n)
              (λ n msg, n + len (message_chunks [msg]))
              (λ n msgs, export_rows (message_chunks msgs) n)
              (λ n msgs, n + len (message_chunks msgs))) with
    (xs := messages) (b := no_batch) (n := 0) (w := w)
    as (F & Hc & Hr).
  - intros n. split; [done|]. unfold len. simpl. lia.
  - intros n x xs. rewrite (message_chunks_cons x xs), export_rows_app.
    split; [done|]. rewrite len_app. lia.
  - intros b n x w0 Hwf. by apply index_message_rows.
  - done.
  - exists F. split; [done|].
    destruct (for_each messages index_message (no_batch, 0) w).2
      as [[b n]|e]; [|done].
    destruct Hr as (Hwf & _ & Hr). split; [done|]. exact Hr.
Qed.

(** The steps after the deletion, for a loader that raises: when no call
    fails, the exception of the loader comes out, and the rows added are
    those of the batches of 128 that were full. *)
Lemma index_all_cut_short (messages : list (value * value * str))
    (e : exn) (w : World) :
  (∀ n, (clock w ≤ n)%nat → fails n = false) →
  let rows := export_rows (message_chunks messages) 0 in
  (index_all (messages, Some e) w).2 = Raise e ∧
  collection (index_all (messages, Some e) w).1
  = foldl add_record (collection w)
      (take (128 * (length rows / 128)) rows).
Proof.
  intros Hok rows. unfold index_all. cbn [fst snd]. rewrite bind_run.
  pose proof (faithful_index_loop messages (no_batch, 0) w) as Hf.
  pose proof (index_loop_pending messages w) as Hp.
  destruct (index_loop_rows messages w) as (F & Hc & Hr).
  destruct (for_each messages index_message (no_batch, 0) w)
    as [w1 [[b n]|e1]]; cbn [fst snd] in *.
  - split; [done|]. change (raise e w1).1 with w1. rewrite Hc. f_equal.
    destruct Hr as [Hwf Hr]. fold rows in Hr.
    assert (Hlen : length rows = length (message_chunks messages))
      by apply export_rows_length.
    assert (HF : (length F + length (docs b))%nat = length rows).
    { rewrite <- Hr, length_app. by rewrite rows_of_length. }
    rewrite <- Hlen in Hp.
    pose proof (Nat.div_mod_eq (length rows) 128) as Hdm.
    rewrite <- Hr at 2. rewrite take_app_length'; [done|]. lia.
  - destruct Hf as (_ & Hlt & Hlast & _).
    rewrite Hok in Hlast; [done|lia].
Qed.

End CutShort.

(** X24: a rebuild that a malformed export cuts short loses chunks. When
    the loader ends with an exception and no external call fails, the
    deletion having succeeded, [build_index] raises that exception with
    the old export partition already deleted and the final flush not
    reached: of the chunks of the messages yielded, only those of the
    batches of 128 that were full are in the collection. With fewer than
    128 chunks, the export partition is left empty. *)
Theorem build_index_cut_short `{Host}
    (messages : list (value * value * str)) (e : exn) (w : World) :
  (∀ n, (clock w ≤ n)%nat → fails n = false) →
  let rows := export_rows (message_chunks messages) 0 in
  let w' := (RagIndex.build_index (messages, Some e) w).1 in
  (RagIndex.build_index (messages, Some e) w).2 = Raise e ∧
  collection w'
  = foldl add_record (others (collection w))
      (take (128 * (length rows / 128)) rows) ∧
  ((length rows < 128)%nat → collection w' = others (collection w)).
Proof.
  intros Hok rows w'. unfold w'. rewrite build_index_steps.
  assert (Hdel : fails (clock w) = false) by (apply Hok; lia).
  destruct (index_all_cut_short messages e (after_delete w)) as [Hr Hc].
  { intros n Hn. rewrite after_delete_clock in Hn. apply Hok. lia. }
  fold rows in Hc.
  assert (Hcol : collection (after_delete w) = others (collection w)).
  { unfold after_delete. by rewrite Hdel. }
  rewrite Hcol in Hc. split; [done|]. split; [done|].
  intros Hshort. rewrite Hc.
  by rewrite (Nat.div_small _ _ Hshort), Nat.mul_0_r.
Qed.

Section CutShortWitness.
Import Samples.

Lemma build_index_cut_short_witness :
  (RagIndex.build_index (H0 := host never ([], []))
     (Loader.iter_chatgpt_messages broken_dir) mixed).2
  = Raise AttributeError ∧
  collection
    (RagIndex.build_index (H0 := host never ([], []))
       (Loader.iter_chatgpt_messages broken_dir) mixed).1
  = <[lit "live-cli-1" := live_entry]> ∅.
Proof.
  destruct (build_index_cut_short (H0 := host never ([], []))
              (Loader.iter_chatgpt_messages broken_dir).1 AttributeError
              mixed ltac:(reflexivity)) as (Hr & _ & Hc).
  split; [exact Hr|].
  etrans; [apply Hc; vm_compute; lia|].
  vm_compute. reflexivity.
Defined.

End CutShortWitness.
